(** * InpaintView: repairing blobs of an image through a sparse overlay

    A shallow embedding of [src/asp/Core/InpaintView.h] (namespace [asp]):
    the task [inpaint_p::InpaintTask::operator()] that patches one blob, and
    the view [InpaintView] that reads the patches before the wrapped image.

    Conventions of the embedding.
    - [vw::int32] coordinates and sizes are [Z]; the images the code meets
      are far below 2^31 pixels wide, and no overflow is modelled.
    - An image is its extent with a function from coordinates to pixels;
      an access of an [ImageView] outside its extent (undefined behaviour in
      the C++) is [None], and the code that performs accesses runs in the
      option monad.
    - The pixel type is a parameter ([PixelType]); the float accumulator of
      the convolution is part of that interface, so that statements about
      the structure of the diffusion hold for every arithmetic.  The
      instance [FloatPixel] has the arithmetic of the code on [float]
      pixels, and the samples are evaluated on it.
    - The tasks of one constructor run on a work queue; each inserts its
      patch under the insert mutex and reads only the immutable source, so a
      run is the sequence of the tasks in the order of their inserts.  The
      constructor takes the blobs in that order; the theorems about a
      catalog hold for every list of blobs, hence for every order. *)

From Stdlib Require Import ZArith QArith List Bool Lia Ascii String Permutation.
From Stdlib Require Import Floats.SpecFloat.
From stdpp Require Import base option list sorting gmap.

Local Open Scope Z_scope.

(** ** Geometry: [vw::Vector2i] and [vw::BBox2i] *)

Definition Vector2i : Type := (Z * Z)%type.

Definition vx (p : Vector2i) : Z := fst p.
Definition vy (p : Vector2i) : Z := snd p.

(** [*iter -= bbox.min()] *)
Definition vsub (p q : Vector2i) : Vector2i := (vx p - vx q, vy p - vy q).
Definition vadd (p q : Vector2i) : Vector2i := (vx p + vx q, vy p + vy q).

(** Modelled from the spec: [vw::BBox2i] of the Vision Workbench, a pair of
    corners "min/max integer coordinates"; [expand] moves both corners out
    by the margin, and [width]/[height] are the differences of the
    corners. *)
Record BBox2i : Type := mkBBox { bmin : Vector2i; bmax : Vector2i }.

Definition expand (b : BBox2i) (m : Z) : BBox2i :=
  {| bmin := (vx (bmin b) - m, vy (bmin b) - m);
     bmax := (vx (bmax b) + m, vy (bmax b) + m) |}.

Definition width (b : BBox2i) : Z := vx (bmax b) - vx (bmin b).
Definition height (b : BBox2i) : Z := vy (bmax b) - vy (bmin b).

(** ** Images *)

(** An image view: extent and pixel function ([cols()], [rows()],
    [operator()(i,j)]). *)
Record ImageView (P : Type) : Type := mkImage {
  cols : Z;
  rows : Z;
  pix : Z -> Z -> P
}.
Arguments mkImage {P} _ _ _.
Arguments cols {P} _.
Arguments rows {P} _.
Arguments pix {P} _ _ _.

Definition in_image {P} (img : ImageView P) (i j : Z) : bool :=
  (0 <=? i) && (i <? cols img) && (0 <=? j) && (j <? rows img).

(** Checked read of a materialised image. *)
Definition iv_get {P} (img : ImageView P) (i j : Z) : option P :=
  if in_image img i j then Some (pix img i j) else None.

(** Checked write [img(i,j) = v]. *)
Definition iv_set {P} (img : ImageView P) (i j : Z) (v : P) : option (ImageView P) :=
  if in_image img i j
  then Some (mkImage (cols img) (rows img)
               (fun a b => if (a =? i) && (b =? j) then v else pix img a b))
  else None.

(** [ImageView<T> img(w,h); fill(img, v)] *)
Definition filled {P} (w h : Z) (v : P) : ImageView P := mkImage w h (fun _ _ => v).

(** [crop(view, bbox)]: the window of [view] under [bbox], re-based at the
    origin. *)
Definition crop {P} (view : ImageView P) (b : BBox2i) : ImageView P :=
  mkImage (width b) (height b)
    (fun i j => pix view (vx (bmin b) + i) (vy (bmin b) + j)).

(** [0, 1, ..., n-1] ([[]] when [n <= 0]). *)
Definition zrange (n : Z) : list Z := map Z.of_nat (seq 0 (Z.to_nat n)).

(** The coordinates of a [w] x [h] image in the order of
    [for i < w: for j < h]. *)
Definition coords (w h : Z) : list Vector2i :=
  flat_map (fun i => map (fun j => (i, j)) (zrange h)) (zrange w).

(** ** Masked images: [create_mask] and [copy_mask] *)

(** A [PixelMask<T>] is a pixel that may be invalid. *)
Definition create_mask (mask : ImageView Z) (nodata : Z) : ImageView (option Z) :=
  mkImage (cols mask) (rows mask)
    (fun i j => if pix mask i j =? nodata then None else Some (pix mask i j)).

(** [copy_mask(img, m)]: the pixels of [img], valid where [m] is. *)
Definition copy_mask {P M} (img : ImageView P) (m : ImageView (option M))
  : ImageView (option P) :=
  mkImage (cols img) (rows img)
    (fun i j => match pix m i j with Some _ => Some (pix img i j) | None => None end).

(** ** The sparse patch store *)

(** Modelled from the spec: [asp::SparseView] (asp/Core/SparseView.h), "a
    mapping from pixel coordinate to reconstructed value".  [absorb] writes
    the valid pixels of a masked image at an offset, a later write of a
    coordinate replacing an earlier one; [contains] is the lookup. *)
Section SparseView.
Context {P : Type}.

Definition absorb_pixel (start : Vector2i) (img : ImageView (option P))
    (s : gmap Vector2i P) (p : Vector2i) : gmap Vector2i P :=
  match pix img (vx p) (vy p) with
  | Some v => <[vadd start p := v]> s
  | None => s
  end.

Definition absorb (s : gmap Vector2i P) (start : Vector2i)
    (img : ImageView (option P)) : gmap Vector2i P :=
  fold_left (absorb_pixel start img) (coords (cols img) (rows img)) s.

Definition contains (s : gmap Vector2i P) (i j : Z) : option P := s !! (i, j).

End SparseView.

(** ** Pixel types *)

(** What the task asks of [SourceT::pixel_type]: its channels
    ([PixelNumChannels], [operator[]]) and the arithmetic of
    [float sum = 0; sum += w * p[c]; p[c] = sum].  The accumulator is a type
    of its own, since the channel type need not be [float]. *)
Class PixelType (P : Type) : Type := {
  channel : Type;
  num_channels : nat;
  get_channel : P -> nat -> channel;
  set_channel : P -> nat -> channel -> P;
  accum : Type;
  accum_zero : accum;
  accum_add : accum -> Q -> channel -> accum;
  accum_store : accum -> channel
}.

(** *** The arithmetic of [float]

    Floating-point numbers are those of [SpecFloat]: [float] is the format
    of 24 bits of precision (binary32), [double] that of 53 (binary64), both
    rounding to nearest, ties to even. *)

(** Conversion to a format: exact from [float] to [double], rounding from
    [double] to [float]. *)
Definition round_to (prec emax : Z) (x : spec_float) : spec_float :=
  match x with
  | S754_finite sg m e => binary_normalize prec emax (cond_Zopp sg (Zpos m)) e sg
  | _ => x
  end.

Definition to_float : spec_float -> spec_float := round_to 24 128.
Definition to_double : spec_float -> spec_float := round_to 53 1024.

Definition float_of_Z (z : Z) : spec_float := binary_normalize 24 128 z 0 false.
Definition double_of_Z (z : Z) : spec_float := binary_normalize 53 1024 z 0 false.

(** A decimal literal such as [.176765] is the [double] nearest to the
    fraction it denotes. *)
Definition double_literal (q : Q) : spec_float :=
  SFdiv 53 1024 (double_of_Z (Qnum q)) (double_of_Z (Zpos (Qden q))).

(** [sum += w * p[c]] with [float sum], a [double] literal [w] and a
    [float] channel: the channel and the sum are converted to [double], the
    product and the sum are computed in [double], and the result is rounded
    to [float] by the assignment. *)
Definition float_accumulate (sum : spec_float) (w : Q) (x : spec_float)
  : spec_float :=
  to_float (SFadd 53 1024 (to_double sum)
              (SFmul 53 1024 (double_literal w) (to_double x))).


(** Pixels of one [float] channel ([vw::float32], [PixelGray<float>]), with
    the arithmetic of the code.  The task writes channels below
    [PixelNumChannels] only, that is channel 0. *)
#[export] Instance FloatPixel : PixelType spec_float := {|
  channel := spec_float;
  num_channels := 1;
  get_channel := fun p _ => p;
  set_channel := fun p c v => match c with O => v | _ => p end;
  accum := spec_float;
  accum_zero := S754_zero false;
  accum_add := float_accumulate;
  accum_store := fun s => s
|}.

(** The two weights of the kernel, [.176765] and [.073235]. *)
Definition w_diag : Q := 176765 # 1000000.
Definition w_orth : Q := 73235 # 1000000.

(** ** Blobs *)

(** Modelled from the spec: [blob::BlobCompressed]
    (asp/Core/BlobIndexThreaded.h), a defect region "identified by its
    bounding box (min/max integer coordinates) and an unordered set of
    interior pixel coordinates relative to the image origin". *)
Record BlobCompressed : Type := mkBlob {
  blob_bbox : BBox2i;
  blob_pixels : list Vector2i
}.

Definition bounding_box (b : BlobCompressed) : BBox2i := blob_bbox b.
Definition decompress (b : BlobCompressed) : list Vector2i := blob_pixels b.

(** A blob lies in its bounding box.  The upper corner is allowed to be a
    pixel of the blob, which covers the half-open boxes of the Vision
    Workbench as well as closed ones. *)
Definition in_bbox (b : BBox2i) (p : Vector2i) : bool :=
  (vx (bmin b) <=? vx p) && (vx p <=? vx (bmax b)) &&
  (vy (bmin b) <=? vy p) && (vy p <=? vy (bmax b)).

Definition blob_bounded (b : BlobCompressed) : bool :=
  (vx (bmin (bounding_box b)) <=? vx (bmax (bounding_box b))) &&
  (vy (bmin (bounding_box b)) <=? vy (bmax (bounding_box b))) &&
  forallb (in_bbox (bounding_box b)) (decompress b).

(** ** The distance field *)

Definition manhattan (p q : Vector2i) : Z :=
  Z.abs (vx p - vx q) + Z.abs (vy p - vy q).

(** Modelled from the spec: [vw::grassfire] of the Vision Workbench, the
    field in which "valid pixels hold 0" and every interior pixel holds its
    "4-connected grassfire distance to the nearest valid pixel".  Without a
    valid pixel in the window the field keeps the bound [cols + rows] on
    the interior. *)
Definition grassfire (mask : ImageView Z) : ImageView Z :=
  let valid := List.filter (fun q => pix mask (vx q) (vy q) =? 0)
                 (coords (cols mask) (rows mask)) in
  mkImage (cols mask) (rows mask)
    (fun i j =>
       if pix mask i j =? 0 then 0
       else fold_right Z.min (cols mask + rows mask)
              (map (manhattan (i, j)) valid)).

(** [max_pixel_value(img)] *)
Definition max_pixel_value (img : ImageView Z) : Z :=
  fold_left Z.max
    (map (fun p => pix img (vx p) (vy p)) (coords (cols img) (rows img)))
    (pix img 0 0).

(** "Working out order of convolution": for [d = 1 .. max_distance], the
    pixels of the window at distance [d], columns first. *)
Definition processing_order (distance : ImageView Z) (max_distance w h : Z)
  : list Vector2i :=
  flat_map
    (fun d => List.filter (fun p => pix distance (vx p) (vy p) =? d) (coords w h))
    (map (fun k => k + 1) (zrange max_distance)).

(** ** Loops in the option monad *)

Fixpoint foldM {A B : Type} (f : B -> A -> option B) (l : list A) (b : B)
  : option B :=
  match l with
  | [] => Some b
  | a :: l' => match f b a with Some b' => foldM f l' b' | None => None end
  end.

Fixpoint iterM {B : Type} (n : nat) (f : B -> option B) (b : B) : option B :=
  match n with
  | O => Some b
  | S n' => match f b with Some b' => iterM n' f b' | None => None end
  end.

(** ** The reconstruction of one window *)

Section Reconstruction.
Context {P : Type} `{PT : PixelType P}.

(** [img(i,j)[c]] *)
Definition chan_at (img : ImageView P) (i j : Z) (c : nat) : option channel :=
  match iv_get img i j with Some p => Some (get_channel p c) | None => None end.

(** The eight reads of one update, in the order of the source, each with
    its weight. *)
Definition stencil (p : Vector2i) : list (Q * Vector2i) :=
  let x := vx p in let y := vy p in
  [ (w_diag, (x - 1, y - 1)); (w_diag, (x - 1, y + 1));
    (w_diag, (x + 1, y - 1)); (w_diag, (x + 1, y + 1));
    (w_orth, (x + 1, y));     (w_orth, (x - 1, y));
    (w_orth, (x, y + 1));     (w_orth, (x, y - 1)) ].

(** [sum += w * img(q)[c]] *)
Definition accumulate (img : ImageView P) (c : nat) (sum : accum)
    (wq : Q * Vector2i) : option accum :=
  match chan_at img (vx (snd wq)) (vy (snd wq)) c with
  | Some v => Some (accum_add sum (fst wq) v)
  | None => None
  end.

(** The body of the innermost loop: channel [c] of the pixel at [p] becomes
    the weighted sum of its eight neighbours. *)
Definition convolve (c : nat) (img : ImageView P) (p : Vector2i)
  : option (ImageView P) :=
  match foldM (accumulate img c) (stencil p) accum_zero with
  | Some sum =>
      match iv_get img (vx p) (vy p) with
      | Some old => iv_set img (vx p) (vy p) (set_channel old c (accum_store sum))
      | None => None
      end
  | None => None
  end.

(** One sweep over the processing order. *)
Definition sweep (order : list Vector2i) (c : nat) (img : ImageView P)
  : option (ImageView P) :=
  foldM (convolve c) order img.

(** The number of sweeps, [10*max_distance*max_distance]. *)
Definition sweep_count (max_distance : Z) : nat :=
  Z.to_nat (10 * max_distance * max_distance).

(** The branch [if (m_use_grassfire)] of the task: distance field, order,
    and the sweeps of every channel in turn. *)
Definition diffusion (cropped_copy : ImageView P) (mask : ImageView Z) (w h : Z)
  : option (ImageView P) :=
  let distance := grassfire mask in
  let max_distance := max_pixel_value distance in
  let order := processing_order distance max_distance w h in
  foldM (fun img c => iterM (sweep_count max_distance) (sweep order c) img)
    (seq 0 num_channels) cropped_copy.

(** The other branch: every pixel of the blob takes the default value. *)
Definition flat_fill (cropped_copy : ImageView P) (blob : list Vector2i)
    (default_inpaint_val : P) : option (ImageView P) :=
  foldM (fun img p => iv_set img (vx p) (vy p) default_inpaint_val) blob cropped_copy.

(** "Creating binary image to highlight hole". *)
Definition make_mask (w h : Z) (blob : list Vector2i) : option (ImageView Z) :=
  foldM (fun m p => iv_set m (vx p) (vy p) 255) blob (filled w h 0).

(** ** The task *)

(** How a task ended: the two messages it can log last. *)
Inductive Outcome : Type := EarlyExit | Finished.

(** The margin of the window, by mode. *)
Definition margin (use_grassfire : bool) : Z := if use_grassfire then 10 else 1.

(** The test of "spots on the edges". *)
Definition off_image (view : ImageView P) (bbox : BBox2i) : bool :=
  (vx (bmin bbox) <? 0) || (vy (bmin bbox) <? 0) ||
  (cols view <=? vx (bmax bbox)) || (rows view <=? vy (bmax bbox)).

(** [InpaintTask::operator()], on the store it was given a reference to.
    The store holds pixels of the view's pixel type (pixel types without a
    validity mask, for which [UnmaskedPixelType] is the identity). *)
Definition InpaintTask (view : ImageView P) (c_blob : BlobCompressed)
    (use_grassfire : bool) (default_inpaint_val : P)
    (patches : gmap Vector2i P) : option (Outcome * gmap Vector2i P) :=
  let bbox := expand (bounding_box c_blob) (margin use_grassfire) in
  if off_image view bbox then Some (EarlyExit, patches)
  else
    let blob := map (fun p => vsub p (bmin bbox)) (decompress c_blob) in
    let cropped_copy := crop view bbox in
    match make_mask (width bbox) (height bbox) blob with
    | Some mask =>
        match (if use_grassfire
               then diffusion cropped_copy mask (width bbox) (height bbox)
               else flat_fill cropped_copy blob default_inpaint_val) with
        | Some patched =>
            Some (Finished,
                  absorb patches (bmin bbox)
                    (copy_mask patched (create_mask mask 0)))
        | None => None
        end
    | None => None
    end.

(** ** The view *)

Record InpaintView : Type := mkInpaintView {
  m_child : ImageView P;
  m_patches : gmap Vector2i P;
  m_use_grassfire : bool;
  m_default_inpaint_val : P
}.

(** The loop of the public constructor with [join_all]: the tasks of the
    blobs, in the order of their inserts, on one store. *)
Definition run_tasks (image : ImageView P) (use_grassfire : bool)
    (default_inpaint_val : P) (blobs : list BlobCompressed)
    (patches : gmap Vector2i P) : option (gmap Vector2i P) :=
  foldM (fun s b =>
           match InpaintTask image b use_grassfire default_inpaint_val s with
           | Some (_, s') => Some s'
           | None => None
           end) blobs patches.

(** The public constructor: the store starts empty. *)
Definition new_InpaintView (image : ImageView P) (bindex : list BlobCompressed)
    (use_grassfire : bool) (default_inpaint_val : P) : option InpaintView :=
  match run_tasks image use_grassfire default_inpaint_val bindex ∅ with
  | Some s => Some (mkInpaintView image s use_grassfire default_inpaint_val)
  | None => None
  end.

Definition iv_cols (v : InpaintView) : Z := cols (m_child v).
Definition iv_rows (v : InpaintView) : Z := rows (m_child v).
Definition iv_planes (v : InpaintView) : Z := 1.

(** [InpaintView::operator()(i,j)] *)
Definition pixel_at (v : InpaintView) (i j : Z) : P :=
  match contains (m_patches v) i j with
  | Some pixel_ref => pixel_ref
  | None => pix (m_child v) i j
  end.

(** The private constructor "for prerasterization". *)
Definition copy_InpaintView (image : ImageView P) (other : InpaintView)
    (use_grassfire : bool) (default_inpaint_val : P) : InpaintView :=
  mkInpaintView image (m_patches other) use_grassfire default_inpaint_val.

(** [InpaintView::prerasterize], over the [prerasterize] of the child's
    type. *)
Definition prerasterize (child_prerasterize : ImageView P -> BBox2i -> ImageView P)
    (v : InpaintView) (bbox : BBox2i) : InpaintView :=
  let preraster := child_prerasterize (m_child v) bbox in
  copy_InpaintView preraster v (m_use_grassfire v) (m_default_inpaint_val v).

End Reconstruction.

(** ** Rasterization of the view *)

Section Rasterize.
Context {P : Type}.

(** The view as an image: [cols()], [rows()] and [operator()]. *)
Definition as_image (v : @InpaintView P) : ImageView P :=
  mkImage (iv_cols v) (iv_rows v) (pixel_at v).

(** [vw::rasterize(src, dest, bbox)] of the Vision Workbench, which fills
    [dest], of the size of [bbox], with the pixels of [src] under [bbox];
    [dest] is the result. *)
Definition vw_rasterize (src : ImageView P) (bbox : BBox2i) : ImageView P :=
  mkImage (width bbox) (height bbox)
    (fun i j => pix src (vx (bmin bbox) + i) (vy (bmin bbox) + j)).

(** [InpaintView::rasterize(dest, bbox)] *)
Definition rasterize (child_prerasterize : ImageView P -> BBox2i -> ImageView P)
    (v : @InpaintView P) (bbox : BBox2i) : ImageView P :=
  vw_rasterize (as_image (prerasterize child_prerasterize v bbox)) bbox.

End Rasterize.

(** ** CameraModelLoader: the choice of the camera model by file name

    [asp::CameraModelLoader] (CameraModelLoader.h).  A [std::string] is a
    list of characters.  The constructors of the camera models read files;
    the embedding records which one is called, and on which file. *)

Definition cstring : Type := list ascii.

(** [std::tolower] in the classic locale: the letters A-Z, and only
    they, move to a-z. *)
Definition to_lower_char (c : ascii) : ascii :=
  let n := nat_of_ascii c in
  if (65 <=? n)%nat && (n <=? 90)%nat then ascii_of_nat (n + 32) else c.

(** [boost::to_lower_copy] *)
Definition to_lower_copy (s : cstring) : cstring := map to_lower_char s.

Fixpoint starts_with (input test : cstring) {struct test} : bool :=
  match test, input with
  | [], _ => true
  | _ :: _, [] => false
  | t :: test', c :: input' => Ascii.eqb c t && starts_with input' test'
  end.

(** [boost::ends_with(input, test)] *)
Definition ends_with (input test : cstring) : bool :=
  starts_with (rev input) (rev test).

(** The extensions the loader knows. *)
Definition ext_cahvore : cstring := list_ascii_of_string ".cahvore".
Definition ext_cahvor : cstring := list_ascii_of_string ".cahvor".
Definition ext_cmod : cstring := list_ascii_of_string ".cmod".
Definition ext_cahv : cstring := list_ascii_of_string ".cahv".
Definition ext_pin : cstring := list_ascii_of_string ".pin".
Definition ext_pinhole : cstring := list_ascii_of_string ".pinhole".
Definition ext_tsai : cstring := list_ascii_of_string ".tsai".

(** The camera models of [vw::camera] the loader constructs. *)
Inductive ModelType : Type := CAHVORE | CAHVOR | CAHV | Pinhole.

(** The outcome of [load_pinhole_camera_model]: the constructor called on
    a file, or the exception [vw::ArgumentErr]. *)
Inductive PinholeLoad : Type :=
  | NewModel (t : ModelType) (file : cstring)
  | ArgumentErr.

(** [CameraModelLoader::load_pinhole_camera_model] *)
Definition load_pinhole_camera_model (path : cstring) : PinholeLoad :=
  let lcase_file := to_lower_copy path in
  if ends_with lcase_file ext_cahvore then NewModel CAHVORE path
  else if ends_with lcase_file ext_cahvor || ends_with lcase_file ext_cmod
  then NewModel CAHVOR path
  else if ends_with lcase_file ext_cahv || ends_with lcase_file ext_pin
  then NewModel CAHV path
  else if ends_with lcase_file ext_pinhole || ends_with lcase_file ext_tsai
  then NewModel Pinhole path
  else ArgumentErr.

(** The outcome of [load_cahv_pinhole_camera_model]: how the CAHV model
    is obtained, or an exception.  [vw::camera::linearize_camera] takes two
    image sizes for the CAHVORE and CAHVOR models and none for the pinhole
    model. *)
Inductive CahvLoad : Type :=
  | LinearizeSized (t : ModelType) (file : cstring) (src_size dst_size : Vector2i)
  | LinearizePinhole (file : cstring)
  | CopyCAHV (file : cstring)
  | CahvArgumentErr
  | ImageErr.

(** [CameraModelLoader::load_cahv_pinhole_camera_model].  [disk_image] is
    the constructor of [vw::DiskImageView<float>] with [cols()] and
    [rows()]: the size of the image of a file, [None] when it throws. *)
Definition load_cahv_pinhole_camera_model
    (disk_image : cstring -> option Vector2i)
    (image_path camera_path : cstring) : CahvLoad :=
  match disk_image image_path with
  | None => ImageErr
  | Some image_size =>
      let lcase_file := to_lower_copy camera_path in
      if ends_with lcase_file ext_cahvore
      then LinearizeSized CAHVORE camera_path image_size image_size
      else if ends_with lcase_file ext_cahvor || ends_with lcase_file ext_cmod
      then LinearizeSized CAHVOR camera_path image_size image_size
      else if ends_with lcase_file ext_cahv || ends_with lcase_file ext_pin
      then CopyCAHV camera_path
      else if ends_with lcase_file ext_pinhole || ends_with lcase_file ext_tsai
      then LinearizePinhole camera_path
      else CahvArgumentErr
  end.

(** The model a load constructs, if any. *)
Definition model_type (r : PinholeLoad) : option ModelType :=
  match r with NewModel t _ => Some t | ArgumentErr => None end.

(** The model a CAHV load starts from, if any. *)
Definition cahv_source_type (r : CahvLoad) : option ModelType :=
  match r with
  | LinearizeSized t _ _ _ => Some t
  | LinearizePinhole _ => Some Pinhole
  | CopyCAHV _ => Some CAHV
  | CahvArgumentErr | ImageErr => None
  end.

(** [std::toupper] in the classic locale, to state that case does not
    matter. *)
Definition to_upper_char (c : ascii) : ascii :=
  let n := nat_of_ascii c in
  if (97 <=? n)%nat && (n <=? 122)%nat then ascii_of_nat (n - 32) else c.

(** ** Auxiliary definitions of the statements *)

(** [p] among the pixels of [l], as a test. *)
Definition memv (p : Vector2i) (l : list Vector2i) : bool :=
  existsb (fun q => (vx q =? vx p) && (vy q =? vy p)) l.

Section Statements.
Context {P : Type} `{PT : PixelType P}.

(** The weighted sum of one update, read off the image without the bounds
    checks: [sum] after the eight [sum += w * img(q)[c]]. *)
Definition conv_sum (img : ImageView P) (c : nat) (p : Vector2i) : accum :=
  fold_left
    (fun sum wq =>
       accum_add sum (fst wq) (get_channel (pix img (vx (snd wq)) (vy (snd wq))) c))
    (stencil p) accum_zero.

(** The image after one update of channel [c] at [p]. *)
Definition updated (img : ImageView P) (c : nat) (p : Vector2i) : ImageView P :=
  mkImage (cols img) (rows img)
    (fun a b =>
       if (a =? vx p) && (b =? vy p)
       then set_channel (pix img (vx p) (vy p)) c (accum_store (conv_sum img c p))
       else pix img a b).

(** The updates of a diffusion, one after the other: for every channel,
    [n] times the processing order. *)
Definition update_schedule (order : list Vector2i) (n : nat) (channels : nat)
  : list (nat * Vector2i) :=
  flat_map (fun c => concat (repeat (map (fun p => (c, p)) order) n))
    (seq 0 channels).

(** A pixel whose eight neighbours are pixels of the image. *)
Definition inner_pixel (img : ImageView P) (p : Vector2i) : Prop :=
  1 <= vx p /\ vx p + 1 < cols img /\ 1 <= vy p /\ vy p + 1 < rows img.

End Statements.

Section Kernel.
Context {P : Type} `{PT : PixelType P}.

(** The sum of one update as a function of the eight values it reads, in
    the order of the source: the diagonal neighbours (x-1,y-1), (x-1,y+1),
    (x+1,y-1), (x+1,y+1), then the orthogonal ones (x+1,y), (x-1,y),
    (x,y+1), (x,y-1). *)
Definition kernel (a1 a2 a3 a4 b1 b2 b3 b4 : channel) : accum :=
  accum_add (accum_add (accum_add (accum_add
    (accum_add (accum_add (accum_add (accum_add accum_zero
       w_diag a1) w_diag a2) w_diag a3) w_diag a4)
       w_orth b1) w_orth b2) w_orth b3) w_orth b4.

End Kernel.

(** The window of a blob: its bounding box with the margin of the mode. *)
Definition window (b : BlobCompressed) (use_grassfire : bool) : BBox2i :=
  expand (bounding_box b) (margin use_grassfire).

(** A coordinate is on the image. *)
Definition on_image {P} (view : ImageView P) (p : Vector2i) : Prop :=
  0 <= vx p < cols view /\ 0 <= vy p < rows view.

(** The test of "spots on the edges" lets the window pass: both corners
    of the box are coordinates of the image.  The upper corner is the
    corner of the code, one past the last pixel of the window, so this asks
    more than that the window be on the image ([window_fits]). *)
Definition passes_edge_test {P} (view : ImageView P) (bbox : BBox2i) : Prop :=
  on_image view (bmin bbox) /\ on_image view (bmax bbox).

(** The window lies inside the image: every pixel of it, as [crop] and
    [width] count them ([bmin] included, [bmax] excluded), is a pixel of
    the image. *)
Definition window_fits {P} (view : ImageView P) (bbox : BBox2i) : Prop :=
  forall q, In q (coords (width bbox) (height bbox)) ->
            on_image view (vadd (bmin bbox) q).

(** The window stops short of the last column and the last row of the
    image. *)
Definition short_of_far_edge {P} (view : ImageView P) (bbox : BBox2i) : Prop :=
  vx (bmax bbox) < cols view /\ vy (bmax bbox) < rows view.


(** [k] is a pixel of a blob of the list whose window passes the test of
    the task. *)
Definition patched_by {P} (view : ImageView P) (g : bool)
    (blobs : list BlobCompressed) (k : Vector2i) : bool :=
  existsb (fun b => negb (off_image view (window b g)) && memv k (decompress b)) blobs.

(** Ascending distance. *)
Definition by_distance (distance : ImageView Z) (p q : Vector2i) : Prop :=
  pix distance (vx p) (vy p) <= pix distance (vx q) (vy q).

(** The number of updates of channel [c] at [p] in a schedule. *)
Definition updates_of (schedule : list (nat * Vector2i)) (c : nat) (p : Vector2i)
  : nat :=
  length (List.filter (fun cp => Nat.eqb (fst cp) c && memv p [snd cp]) schedule).

(** [bbox.contains(x, y)] *)
Definition bbox_contains (b : BBox2i) (x y : Z) : Prop :=
  vx (bmin b) <= x < vx (bmax b) /\ vy (bmin b) <= y < vy (bmax b).

(** ** Sample data *)

(** A 10 x 10 image of one channel, every pixel with a value of its own. *)
Definition sample_image : ImageView spec_float :=
  mkImage 10 10 (fun i j => float_of_Z (1 + i + 10 * j)).

(** The blob of the single pixel (5,5). *)
Definition sample_blob : BlobCompressed := mkBlob (mkBBox (5, 5) (6, 6)) [(5, 5)].

(** A blob on the left edge of the image. *)
Definition edge_blob : BlobCompressed := mkBlob (mkBBox (0, 5) (1, 6)) [(0, 5)].

Definition black : spec_float := S754_zero false.

(** A blob of two pixels, one above the other, in a 30 x 30 image. *)
Definition pair_blob : BlobCompressed :=
  mkBlob (mkBBox (15, 15) (16, 17)) [(15, 15); (15, 16)].

(** The 30 x 30 image that is 0 everywhere. *)
Definition flat_image : ImageView spec_float := mkImage 30 30 (fun _ _ => black).

(** The same image with the defect pixel (15,16) at -10^38, a value as
    no-data markers have. *)
Definition spoiled_image : ImageView spec_float :=
  mkImage 30 30
    (fun i j => if (i =? 15) && (j =? 16) then float_of_Z (- 10 ^ 38) else black).

(** The window of [pair_blob] in diffusion mode, its mask and its
    distance field. *)
Definition pair_window : BBox2i := window pair_blob true.

Definition pair_mask : ImageView Z :=
  mkImage 21 22 (fun i j => if memv (i, j) [(10, 10); (10, 11)] then 255 else 0).

Definition pair_distance : ImageView Z := grassfire pair_mask.

(** A [prerasterize] of the child that keeps the pixels of the region and
    blanks the others. *)
Definition clipped (child : ImageView spec_float) (R : BBox2i)
  : ImageView spec_float :=
  mkImage (cols child) (rows child)
    (fun x y =>
       if (vx (bmin R) <=? x) && (x <? vx (bmax R)) &&
          (vy (bmin R) <=? y) && (y <? vy (bmax R))
       then pix child x y else black).

(** The overlay of [sample_image] with the pixel (5,5) patched. *)
Definition sample_overlay : InpaintView :=
  mkInpaintView sample_image {[ (5, 5) := black ]} false black.

(** A blob of one pixel in the 30 x 30 images. *)
Definition lone_blob : BlobCompressed := mkBlob (mkBBox (12, 12) (13, 13)) [(12, 12)].

(** A blob of two pixels that shares (5,5) with [sample_blob]. *)
Definition wide_blob : BlobCompressed := mkBlob (mkBBox (4, 5) (6, 6)) [(4, 5); (5, 5)].

(** File names for the loader. *)
Definition name_cahvor : cstring := list_ascii_of_string "left.CAHVOR".
Definition name_dir : cstring := list_ascii_of_string "/data/run1/".
Definition name_image : cstring := list_ascii_of_string "left.tif".

(** A blob next to the last column of the 10 x 10 image: its window in
    flat mode is made of the columns 7 to 9 and the rows 4 to 6. *)
Definition far_edge_blob : BlobCompressed := mkBlob (mkBBox (8, 5) (9, 6)) [(8, 5)].

(** A blob of two pixels that shares (15,16) with [pair_blob]. *)
Definition cross_blob : BlobCompressed :=
  mkBlob (mkBBox (15, 16) (17, 17)) [(15, 16); (16, 16)].

(** The 30 x 30 image whose values rise along both axes. *)
Definition ramp_image : ImageView spec_float :=
  mkImage 30 30 (fun i j => float_of_Z (i + 30 * j)).

(** * Properties *)

(** ** Ranges and coordinates *)

Lemma in_zrange (n k : Z) : In k (zrange n) <-> 0 <= k < n.
Proof.
  unfold zrange. rewrite in_map_iff. split.
  - intros [a [<- Ha]]. apply in_seq in Ha. lia.
  - intros Hk. exists (Z.to_nat k). split; [lia|]. apply in_seq. lia.
Qed.

Lemma in_coords (w h : Z) (p : Vector2i) :
  In p (coords w h) <-> (0 <= vx p < w /\ 0 <= vy p < h).
Proof.
  unfold coords. rewrite in_flat_map. split.
  - intros [i [Hi Hp]]. apply in_map_iff in Hp as [j [<- Hj]].
    apply in_zrange in Hi. apply in_zrange in Hj. simpl. lia.
  - intros [Hx Hy]. exists (vx p). split; [by apply in_zrange|].
    apply in_map_iff. exists (vy p). split; [by destruct p|by apply in_zrange].
Qed.

Lemma in_image_true {P} (img : ImageView P) (i j : Z) :
  in_image img i j = true <-> (0 <= i < cols img /\ 0 <= j < rows img).
Proof. unfold in_image. rewrite !andb_true_iff. lia. Qed.

Lemma in_image_coords {P} (img : ImageView P) (p : Vector2i) :
  in_image img (vx p) (vy p) = true <-> In p (coords (cols img) (rows img)).
Proof. rewrite in_image_true, in_coords. tauto. Qed.

Lemma vadd_vsub (k start : Vector2i) : vadd start (vsub k start) = k.
Proof. destruct k, start. unfold vadd, vsub, vx, vy. simpl. f_equal; lia. Qed.

Lemma vsub_vadd (p start : Vector2i) : vsub (vadd start p) start = p.
Proof. destruct p, start. unfold vadd, vsub, vx, vy. simpl. f_equal; lia. Qed.

Lemma vector_eta (p : Vector2i) : (vx p, vy p) = p.
Proof. by destruct p. Qed.

(** ** Loops *)

(** A loop whose body keeps an invariant and never fails on it
    completes, and the invariant holds of its result. *)
Lemma foldM_invariant {A B} (I : B -> Prop) (f : B -> A -> option B)
    (l : list A) (b : B) :
  I b ->
  (forall b a, In a l -> I b -> exists b', f b a = Some b' /\ I b') ->
  exists b', foldM f l b = Some b' /\ I b'.
Proof.
  revert b. induction l as [|a l IH]; intros b Hb Hstep; simpl.
  - eauto.
  - destruct (Hstep b a (or_introl eq_refl) Hb) as [b1 [-> Hb1]].
    apply IH; [done|]. intros b2 a2 Ha2. apply Hstep. by right.
Qed.

Lemma iterM_invariant {B} (I : B -> Prop) (f : B -> option B) (n : nat) (b : B) :
  I b ->
  (forall b, I b -> exists b', f b = Some b' /\ I b') ->
  exists b', iterM n f b = Some b' /\ I b'.
Proof.
  revert b. induction n as [|n IH]; intros b Hb Hstep; simpl.
  - eauto.
  - destruct (Hstep b Hb) as [b1 [-> Hb1]]. by apply IH.
Qed.

Lemma foldM_app {A B} (f : B -> A -> option B) (l1 l2 : list A) (b : B) :
  foldM f (l1 ++ l2) b =
  match foldM f l1 b with Some b' => foldM f l2 b' | None => None end.
Proof.
  revert b. induction l1 as [|a l1 IH]; intros b; simpl; [done|].
  destruct (f b a); [apply IH|done].
Qed.

(** ** Writing one value at the pixels of a list *)

Lemma memv_true (p : Vector2i) (l : list Vector2i) : memv p l = true <-> In p l.
Proof.
  unfold memv. rewrite existsb_exists. split.
  - intros [q [Hq Heq]]. apply andb_true_iff in Heq as [Hx Hy].
    destruct p, q. unfold vx, vy in *. simpl in *.
    apply Z.eqb_eq in Hx, Hy. by subst.
  - intros Hin. exists p. split; [done|]. by rewrite !Z.eqb_refl.
Qed.

Lemma memv_false (p : Vector2i) (l : list Vector2i) : memv p l = false <-> ~ In p l.
Proof. rewrite <- memv_true. by destruct (memv p l). Qed.

Lemma paint_list {P} (v : P) (l : list Vector2i) (img : ImageView P) :
  Forall (fun p => in_image img (vx p) (vy p) = true) l ->
  exists img',
    foldM (fun m p => iv_set m (vx p) (vy p) v) l img = Some img' /\
    cols img' = cols img /\ rows img' = rows img /\
    forall i j, pix img' i j = if memv (i, j) l then v else pix img i j.
Proof.
  revert img. induction l as [|p l IH]; intros img Hl; simpl.
  - exists img. by repeat split.
  - inversion Hl as [|? ? Hp Hl']; subst. unfold iv_set at 1. rewrite Hp.
    set (img1 := mkImage _ _ _).
    destruct (IH img1) as [img' (Hf & Hc & Hr & Hpix)].
    { eapply Forall_impl; [exact Hl'|]. intros q Hq. exact Hq. }
    exists img'. repeat split; [done..|].
    intros i j. rewrite Hpix. unfold vx, vy. simpl.
    destruct (memv (i, j) l) eqn:E.
    + by rewrite orb_true_r.
    + rewrite orb_false_r. unfold img1. simpl.
      rewrite (Z.eqb_sym (p.1) i), (Z.eqb_sym (p.2) j). done.
Qed.

(** ** The store after [absorb] *)

Lemma absorb_fold_lookup {P} (start : Vector2i) (img : ImageView (option P))
    (l : list Vector2i) (s : gmap Vector2i P) (k : Vector2i) :
  fold_left (absorb_pixel start img) l s !! k =
  match pix img (vx (vsub k start)) (vy (vsub k start)) with
  | Some v => if memv (vsub k start) l then Some v else s !! k
  | None => s !! k
  end.
Proof.
  revert s. induction l as [|p l IH]; intros s.
  - simpl. by destruct (pix img _ _).
  - cbn [fold_left]. rewrite IH. unfold memv. cbn [existsb].
    fold (memv (vsub k start) l). unfold absorb_pixel.
    destruct (decide (p = vsub k start)) as [->|Hne].
    + rewrite !Z.eqb_refl. cbn [andb orb].
      destruct (pix img _ _) eqn:E; [|done].
      rewrite vadd_vsub, lookup_insert_eq. by destruct (memv _ l).
    + assert (Hk : vadd start p <> k).
      { intros <-. apply Hne. by rewrite vsub_vadd. }
      assert (Hb : (vx p =? vx (vsub k start)) && (vy p =? vy (vsub k start)) = false).
      { apply not_true_is_false. intros Hb. apply andb_true_iff in Hb as [Hx Hy].
        apply Z.eqb_eq in Hx, Hy. apply Hne.
        rewrite <- (vector_eta p), <- (vector_eta (vsub k start)). congruence. }
      rewrite Hb. cbn [orb].
      destruct (pix img (vx p) (vy p)); [rewrite lookup_insert_ne by done|]; done.
Qed.

(** A coordinate of the store after [absorb] holds the valid pixel of the
    patch that lies on it, and what it held before when there is none. *)
Lemma absorb_lookup {P} (s : gmap Vector2i P) (start : Vector2i)
    (img : ImageView (option P)) (k : Vector2i) :
  absorb s start img !! k =
  if in_image img (vx (vsub k start)) (vy (vsub k start))
  then match pix img (vx (vsub k start)) (vy (vsub k start)) with
       | Some v => Some v
       | None => s !! k
       end
  else s !! k.
Proof.
  unfold absorb. rewrite absorb_fold_lookup.
  destruct (in_image img _ _) eqn:E.
  - apply in_image_coords, memv_true in E. rewrite E. done.
  - destruct (pix img _ _); [|done].
    destruct (memv _ _) eqn:M; [|done].
    apply memv_true, in_image_coords in M. congruence.
Qed.

(** ** The distance field and the processing order *)

Lemma manhattan_pos (p q : Vector2i) : p <> q -> 1 <= manhattan p q.
Proof.
  intros Hne. unfold manhattan.
  destruct (decide (vx p = vx q)) as [Hx|Hx];
    destruct (decide (vy p = vy q)) as [Hy|Hy]; try lia.
  exfalso. apply Hne. rewrite <- (vector_eta p), <- (vector_eta q). congruence.
Qed.

Lemma fold_min_lower (lo d : Z) (l : list Z) :
  lo <= d -> Forall (fun x => lo <= x) l -> lo <= fold_right Z.min d l.
Proof. intros Hd Hl. induction Hl; simpl; lia. Qed.

(** Valid pixels hold 0. *)
Lemma grassfire_valid (mask : ImageView Z) (i j : Z) :
  pix mask i j = 0 -> pix (grassfire mask) i j = 0.
Proof. intros H. unfold grassfire. simpl. by rewrite H. Qed.

(** Interior pixels of the window hold at least 1. *)
Lemma grassfire_interior (mask : ImageView Z) (i j : Z) :
  in_image mask i j = true -> pix mask i j <> 0 -> 1 <= pix (grassfire mask) i j.
Proof.
  intros Hin H. unfold grassfire. simpl.
  destruct (pix mask i j =? 0) eqn:E; [apply Z.eqb_eq in E; done|].
  apply in_image_true in Hin. apply fold_min_lower; [lia|].
  apply Forall_forall. intros x Hx. apply list_elem_of_In, in_map_iff in Hx as [q [<- Hq]].
  apply filter_In in Hq as [_ Hq]. apply Z.eqb_eq in Hq.
  apply manhattan_pos. intros <-. unfold vx, vy in Hq. simpl in Hq. congruence.
Qed.

Lemma grassfire_cols (mask : ImageView Z) : cols (grassfire mask) = cols mask.
Proof. done. Qed.

Lemma grassfire_rows (mask : ImageView Z) : rows (grassfire mask) = rows mask.
Proof. done. Qed.

Lemma fold_max_ge_init (l : list Z) (a : Z) : a <= fold_left Z.max l a.
Proof.
  revert a. induction l as [|x l IH]; intros a; simpl; [lia|].
  specialize (IH (Z.max a x)). lia.
Qed.

Lemma fold_max_ge (l : list Z) (a x : Z) : In x l -> x <= fold_left Z.max l a.
Proof.
  revert a. induction l as [|y l IH]; intros a Hx; simpl; [done|].
  destruct Hx as [->|Hx]; [|by apply IH].
  pose proof (fold_max_ge_init l (Z.max a x)). lia.
Qed.

(** No pixel of the image exceeds [max_pixel_value]. *)
Lemma max_pixel_value_ge (img : ImageView Z) (p : Vector2i) :
  In p (coords (cols img) (rows img)) ->
  pix img (vx p) (vy p) <= max_pixel_value img.
Proof.
  intros Hp. unfold max_pixel_value. apply fold_max_ge.
  apply in_map_iff. by exists p.
Qed.



(** The processing order holds the pixels of the window at distances
    [1 .. max_distance]. *)
Lemma in_processing_order (distance : ImageView Z) (md w h : Z) (p : Vector2i) :
  In p (processing_order distance md w h) <->
  (In p (coords w h) /\ 1 <= pix distance (vx p) (vy p) <= md).
Proof.
  unfold processing_order. rewrite in_flat_map. split.
  - intros [d [Hd Hp]]. apply in_map_iff in Hd as [k [<- Hk]].
    apply in_zrange in Hk. apply filter_In in Hp as [Hc Hp].
    apply Z.eqb_eq in Hp. split; [done|lia].
  - intros [Hc Hd]. exists (pix distance (vx p) (vy p)). split.
    + apply in_map_iff. exists (pix distance (vx p) (vy p) - 1).
      split; [lia|]. apply in_zrange. lia.
    + apply filter_In. split; [done|]. apply Z.eqb_refl.
Qed.

(** With the distance field of a mask, these are the interior pixels of
    the window. *)
Lemma in_order_of_mask (mask : ImageView Z) (p : Vector2i) :
  let distance := grassfire mask in
  In p (processing_order distance (max_pixel_value distance) (cols mask) (rows mask))
  <-> (In p (coords (cols mask) (rows mask)) /\ pix mask (vx p) (vy p) <> 0).
Proof.
  intros distance. rewrite in_processing_order. split.
  - intros [Hc Hd]. split; [done|]. intros H0.
    apply grassfire_valid in H0. fold distance in H0. lia.
  - intros [Hc Hm]. split; [done|]. split.
    + apply grassfire_interior; [by apply in_image_coords|done].
    + by apply (max_pixel_value_ge distance).
Qed.

(** ** One update *)

Section Update.
Context {P : Type} `{PT : PixelType P}.

Lemma chan_at_in (img : ImageView P) (i j : Z) (c : nat) :
  0 <= i < cols img -> 0 <= j < rows img ->
  chan_at img i j c = Some (get_channel (pix img i j) c).
Proof.
  intros Hi Hj. unfold chan_at, iv_get.
  by rewrite (proj2 (in_image_true img i j) (conj Hi Hj)).
Qed.

Lemma accumulate_all (img : ImageView P) (c : nat) (l : list (Q * Vector2i))
    (sum : accum) :
  Forall (fun wq => in_image img (vx (snd wq)) (vy (snd wq)) = true) l ->
  foldM (accumulate img c) l sum =
  Some (fold_left
          (fun sum wq =>
             accum_add sum (fst wq)
               (get_channel (pix img (vx (snd wq)) (vy (snd wq))) c)) l sum).
Proof.
  intros Hl. revert sum. induction Hl as [|wq l Hwq _ IH]; intros sum; [done|].
  cbn [foldM fold_left]. unfold accumulate at 1, chan_at, iv_get.
  rewrite Hwq. apply IH.
Qed.

Lemma stencil_in_image (img : ImageView P) (p : Vector2i) :
  inner_pixel img p ->
  Forall (fun wq => in_image img (vx (snd wq)) (vy (snd wq)) = true) (stencil p).
Proof.
  intros (Hx1 & Hx2 & Hy1 & Hy2). unfold stencil.
  repeat constructor; apply in_image_true; unfold vx, vy in *; simpl; lia.
Qed.

(** On a pixel with its eight neighbours in the image, the update
    performs no access outside the image and yields [updated]. *)
Lemma convolve_inner (c : nat) (img : ImageView P) (p : Vector2i) :
  inner_pixel img p -> convolve c img p = Some (updated img c p).
Proof.
  intros Hin. unfold convolve.
  rewrite (accumulate_all img c (stencil p) accum_zero (stencil_in_image img p Hin)).
  destruct Hin as (Hx1 & Hx2 & Hy1 & Hy2).
  unfold iv_get, iv_set.
  rewrite (proj2 (in_image_true img (vx p) (vy p))) by lia.
  reflexivity.
Qed.

Lemma updated_cols (img : ImageView P) (c : nat) (p : Vector2i) :
  cols (updated img c p) = cols img.
Proof. done. Qed.

Lemma updated_rows (img : ImageView P) (c : nat) (p : Vector2i) :
  rows (updated img c p) = rows img.
Proof. done. Qed.

Lemma updated_other (img : ImageView P) (c : nat) (p : Vector2i) (i j : Z) :
  (i, j) <> p -> pix (updated img c p) i j = pix img i j.
Proof.
  intros Hne. unfold updated. simpl.
  destruct ((i =? vx p) && (j =? vy p)) eqn:E; [|done].
  apply andb_true_iff in E as [Hi Hj]. apply Z.eqb_eq in Hi, Hj.
  exfalso. apply Hne. rewrite <- (vector_eta p). congruence.
Qed.

Lemma updated_self (img : ImageView P) (c : nat) (p : Vector2i) :
  pix (updated img c p) (vx p) (vy p) =
  set_channel (pix img (vx p) (vy p)) c (accum_store (conv_sum img c p)).
Proof. unfold updated. simpl. by rewrite !Z.eqb_refl. Qed.

(** ** The sweeps *)

(** An invariant of the updates at the pixels of the order, on which
    these pixels are inner pixels, is an invariant of the diffusion, and
    the diffusion completes. *)
Lemma diffusion_invariant (I : ImageView P -> Prop)
    (cropped_copy : ImageView P) (mask : ImageView Z) (w h : Z) :
  let distance := grassfire mask in
  let order := processing_order distance (max_pixel_value distance) w h in
  I cropped_copy ->
  (forall img p, I img -> In p order -> inner_pixel img p) ->
  (forall img c p, I img -> In p order -> inner_pixel img p -> I (updated img c p)) ->
  exists img', diffusion cropped_copy mask w h = Some img' /\ I img'.
Proof.
  intros distance order H0 Hinner Hstep. unfold diffusion.
  fold distance. fold order.
  apply foldM_invariant; [done|]. intros img c _ Himg.
  apply iterM_invariant; [done|]. clear img Himg. intros img Himg.
  unfold sweep. apply foldM_invariant; [done|]. clear img Himg.
  intros img p Hp Himg. exists (updated img c p).
  split; [apply convolve_inner|apply Hstep]; auto.
Qed.

End Update.

(** ** The window of a blob *)

Lemma memv_local (start k : Vector2i) (l : list Vector2i) :
  memv (vsub k start) (map (fun p => vsub p start) l) = memv k l.
Proof.
  destruct (memv k l) eqn:E.
  - apply memv_true in E. apply memv_true, in_map_iff. by exists k.
  - apply memv_false in E. apply memv_false. intros Hin.
    apply in_map_iff in Hin as [q [Hq Hin]]. apply E.
    rewrite <- (vadd_vsub k start), <- Hq, vadd_vsub. done.
Qed.

(** A pixel of a bounded blob, seen from the corner of the window, keeps
    the margin to the four edges of the window. *)
Lemma local_range (b : BlobCompressed) (m : Z) (p : Vector2i) :
  blob_bounded b = true -> In p (decompress b) ->
  let bbox := expand (bounding_box b) m in
  let q := vsub p (bmin bbox) in
  (m <= vx q <= width bbox - m) /\ (m <= vy q <= height bbox - m).
Proof.
  intros Hb Hp. unfold blob_bounded in Hb.
  apply andb_true_iff in Hb as [_ Hb].
  rewrite forallb_forall in Hb. specialize (Hb p Hp).
  unfold in_bbox in Hb. rewrite !andb_true_iff in Hb.
  destruct Hb as [[[H1 H2] H3] H4].
  unfold width, height, expand, vsub, vx, vy in *. simpl. lia.
Qed.

Lemma local_in_window (b : BlobCompressed) (m : Z) (p : Vector2i) :
  1 <= m -> blob_bounded b = true -> In p (decompress b) ->
  let bbox := expand (bounding_box b) m in
  In (vsub p (bmin bbox)) (coords (width bbox) (height bbox)).
Proof.
  intros Hm Hb Hp bbox. apply in_coords.
  pose proof (local_range b m p Hb Hp) as [Hx Hy]. fold bbox in Hx, Hy.
  cbv zeta in Hx, Hy. lia.
Qed.

(** The mask of a bounded blob is 255 on the blob and 0 elsewhere. *)
Lemma make_mask_blob (b : BlobCompressed) (m : Z) :
  1 <= m -> blob_bounded b = true ->
  let bbox := expand (bounding_box b) m in
  let blob := map (fun p => vsub p (bmin bbox)) (decompress b) in
  exists mask,
    make_mask (width bbox) (height bbox) blob = Some mask /\
    cols mask = width bbox /\ rows mask = height bbox /\
    forall i j, pix mask i j = if memv (i, j) blob then 255 else 0.
Proof.
  intros Hm Hb bbox blob. unfold make_mask.
  destruct (paint_list 255 blob (filled (width bbox) (height bbox) 0))
    as [mask (Hf & Hc & Hr & Hpix)].
  - apply Forall_forall. intros q Hq.
    apply list_elem_of_In, in_map_iff in Hq as [p [<- Hp]].
    apply in_image_coords. simpl. by apply local_in_window.
  - exists mask. repeat split; try done.
Qed.

Section Task.
Context {P : Type} `{PT : PixelType P}.

(** The patch that enters the store, read at a coordinate of the image:
    the reconstructed pixel on the blob, nothing elsewhere. *)
Lemma patch_lookup (b : BlobCompressed) (m : Z) (mask : ImageView Z)
    (patched : ImageView P) (s : gmap Vector2i P) (k : Vector2i) :
  1 <= m -> blob_bounded b = true ->
  let bbox := expand (bounding_box b) m in
  let blob := map (fun p => vsub p (bmin bbox)) (decompress b) in
  (forall i j, pix mask i j = if memv (i, j) blob then 255 else 0) ->
  cols patched = width bbox -> rows patched = height bbox ->
  absorb s (bmin bbox) (copy_mask patched (create_mask mask 0)) !! k =
  if memv k (decompress b)
  then Some (pix patched (vx (vsub k (bmin bbox))) (vy (vsub k (bmin bbox))))
  else s !! k.
Proof.
  intros Hm Hb bbox blob Hmask Hc Hr. rewrite absorb_lookup.
  set (q := vsub k (bmin bbox)). unfold copy_mask, create_mask. cbn [pix].
  rewrite Hmask, (vector_eta q). unfold q, blob. rewrite memv_local.
  destruct (memv k (decompress b)) eqn:E.
  - apply memv_true in E.
    pose proof (local_in_window b m k Hm Hb E) as Hin. fold bbox in Hin.
    cbv zeta in Hin. rewrite <- Hc, <- Hr in Hin.
    apply (in_image_coords patched) in Hin.
    unfold in_image in *. cbn [cols rows]. rewrite Hin. done.
  - simpl. by destruct (in_image _ _ _).
Qed.

(** The task of a blob whose window passes the test, once the
    reconstruction of the window is known. *)
Lemma task_finished (view : ImageView P) (b : BlobCompressed) (g : bool)
    (d : P) (s : gmap Vector2i P) (mask : ImageView Z) (patched : ImageView P) :
  let bbox := window b g in
  let blob := map (fun p => vsub p (bmin bbox)) (decompress b) in
  off_image view bbox = false ->
  make_mask (width bbox) (height bbox) blob = Some mask ->
  (if g then diffusion (crop view bbox) mask (width bbox) (height bbox)
   else flat_fill (crop view bbox) blob d) = Some patched ->
  InpaintTask view b g d s =
  Some (Finished, absorb s (bmin bbox) (copy_mask patched (create_mask mask 0))).
Proof.
  intros bbox blob Hoff Hmask Hrec. unfold InpaintTask.
  fold (window b g). fold bbox. rewrite Hoff. fold blob. rewrite Hmask.
  by rewrite Hrec.
Qed.

(** A task whose window fails the test leaves the store as it is. *)
Lemma task_early_exit (view : ImageView P) (b : BlobCompressed) (g : bool)
    (d : P) (s : gmap Vector2i P) :
  off_image view (window b g) = true ->
  InpaintTask view b g d s = Some (EarlyExit, s).
Proof. intros Hoff. unfold InpaintTask. fold (window b g). by rewrite Hoff. Qed.

Lemma margin_pos (g : bool) : 1 <= margin g.
Proof. destruct g; simpl; lia. Qed.

(** Flat replacement of the window of a bounded blob. *)
Lemma flat_fill_blob (view : ImageView P) (b : BlobCompressed) (d : P) :
  blob_bounded b = true ->
  let bbox := window b false in
  let blob := map (fun p => vsub p (bmin bbox)) (decompress b) in
  exists patched,
    flat_fill (crop view bbox) blob d = Some patched /\
    cols patched = width bbox /\ rows patched = height bbox /\
    forall i j, pix patched i j = if memv (i, j) blob then d else pix (crop view bbox) i j.
Proof.
  intros Hb bbox blob. unfold flat_fill.
  destruct (paint_list d blob (crop view bbox)) as [patched (Hf & Hc & Hr & Hpix)].
  - apply Forall_forall. intros q Hq.
    apply list_elem_of_In, in_map_iff in Hq as [p [<- Hp]].
    apply in_image_coords. simpl.
    apply (local_in_window b 1); [lia|done..].
  - exists patched. repeat split; done.
Qed.

(** Diffusion on the window of a bounded blob: it completes without an
    access outside the window, keeps the extent, and keeps every invariant
    of the single updates at the pixels of the blob. *)
Lemma diffusion_blob (J : ImageView P -> Prop) (view : ImageView P)
    (b : BlobCompressed) (mask : ImageView Z) :
  blob_bounded b = true ->
  let bbox := window b true in
  let blob := map (fun p => vsub p (bmin bbox)) (decompress b) in
  cols mask = width bbox -> rows mask = height bbox ->
  (forall i j, pix mask i j = if memv (i, j) blob then 255 else 0) ->
  J (crop view bbox) ->
  (forall img c p,
      cols img = width bbox -> rows img = height bbox -> J img ->
      In p blob -> inner_pixel img p -> J (updated img c p)) ->
  exists patched,
    diffusion (crop view bbox) mask (width bbox) (height bbox) = Some patched /\
    cols patched = width bbox /\ rows patched = height bbox /\ J patched.
Proof.
  intros Hb bbox blob Hc Hr Hmask HJ Hstep.
  assert (Horder : forall p,
    In p (processing_order (grassfire mask) (max_pixel_value (grassfire mask))
            (width bbox) (height bbox)) -> In p blob).
  { intros p Hp. rewrite <- Hc, <- Hr in Hp. apply in_order_of_mask in Hp as [_ Hp].
    rewrite Hmask, (vector_eta p) in Hp.
    destruct (memv p blob) eqn:E; [by apply memv_true|done]. }
  assert (Hinner : forall (img : ImageView P) p,
    cols img = width bbox -> rows img = height bbox -> In p blob -> inner_pixel img p).
  { intros img p Hci Hri Hp. apply in_map_iff in Hp as [p0 [<- Hp0]].
    pose proof (local_range b 10 p0 Hb Hp0) as [Hx Hy].
    unfold inner_pixel. rewrite Hci, Hri. unfold bbox, window, margin.
    cbv zeta in Hx, Hy. lia. }
  destruct (diffusion_invariant
              (fun img => cols img = width bbox /\ rows img = height bbox /\ J img)
              (crop view bbox) mask (width bbox) (height bbox))
    as [patched [Hd (H1 & H2 & H3)]].
  - by repeat split.
  - intros img p (H1 & H2 & _) Hp. apply Hinner; auto.
  - intros img c p (H1 & H2 & H3) Hp Hin. repeat split; auto.
  - by exists patched.
Qed.

End Task.

(** ** The store after one task, and after all of them *)

Section Store.
Context {P : Type} `{PT : PixelType P}.

Lemma task_flat (view : ImageView P) (b : BlobCompressed) (d : P)
    (s : gmap Vector2i P) :
  blob_bounded b = true -> off_image view (window b false) = false ->
  exists s',
    InpaintTask view b false d s = Some (Finished, s') /\
    forall k, s' !! k = if memv k (decompress b) then Some d else s !! k.
Proof.
  intros Hb Hoff.
  destruct (make_mask_blob b 1 ltac:(lia) Hb) as [mask (Hm & Hmc & Hmr & Hmask)].
  destruct (flat_fill_blob view b d Hb) as [patched (Hf & Hc & Hr & Hpix)].
  eexists. split.
  - apply (task_finished view b false d s mask patched); done.
  - intros k. unfold window, margin.
    rewrite (patch_lookup b 1 mask patched s k ltac:(lia) Hb Hmask Hc Hr).
    destruct (memv k (decompress b)) eqn:E; [|done].
    rewrite Hpix, vector_eta. unfold window, margin. by rewrite memv_local, E.
Qed.

Lemma task_diffusion (J : ImageView P -> Prop) (view : ImageView P)
    (b : BlobCompressed) (d : P) (s : gmap Vector2i P) :
  blob_bounded b = true -> off_image view (window b true) = false ->
  let bbox := window b true in
  let blob := map (fun p => vsub p (bmin bbox)) (decompress b) in
  J (crop view bbox) ->
  (forall img c p,
      cols img = width bbox -> rows img = height bbox -> J img ->
      In p blob -> inner_pixel img p -> J (updated img c p)) ->
  exists s' patched,
    InpaintTask view b true d s = Some (Finished, s') /\ J patched /\
    forall k, s' !! k =
              if memv k (decompress b)
              then Some (pix patched (vx (vsub k (bmin bbox))) (vy (vsub k (bmin bbox))))
              else s !! k.
Proof.
  intros Hb Hoff bbox blob HJ Hstep.
  destruct (make_mask_blob b 10 ltac:(lia) Hb) as [mask (Hm & Hmc & Hmr & Hmask)].
  destruct (diffusion_blob J view b mask Hb Hmc Hmr Hmask HJ Hstep)
    as [patched (Hd & Hc & Hr & HJp)].
  eexists. exists patched. split; [|split; [exact HJp|]].
  - apply (task_finished view b true d s mask patched); done.
  - intros k.
    apply (patch_lookup b 10 mask patched s k ltac:(lia) Hb Hmask Hc Hr).
Qed.

(** Whatever the mode, the task of a bounded blob returns, and the store
    differs from the one it was given on pixels of the blob only, and only
    when the window passes the test. *)
Lemma task_frame (view : ImageView P) (b : BlobCompressed) (g : bool) (d : P)
    (s : gmap Vector2i P) :
  blob_bounded b = true ->
  exists o s',
    InpaintTask view b g d s = Some (o, s') /\
    (forall k, negb (off_image view (window b g)) && memv k (decompress b) = false ->
               s' !! k = s !! k) /\
    (forall k, negb (off_image view (window b g)) && memv k (decompress b) = true ->
               is_Some (s' !! k)).
Proof.
  intros Hb. destruct (off_image view (window b g)) eqn:Hoff.
  - exists EarlyExit, s. split; [by apply task_early_exit|]. split; [done|].
    intros k Hk. done.
  - cbn [negb andb]. destruct g.
    + destruct (task_diffusion (fun _ => True) view b d s Hb Hoff I)
        as [s' [patched (Ht & _ & Hl)]].
      { done. }
      exists Finished, s'. split; [done|].
      split; intros k Hk; rewrite Hl, Hk; done.
    + destruct (task_flat view b d s Hb Hoff) as [s' (Ht & Hl)].
      exists Finished, s'. split; [done|].
      split; intros k Hk; rewrite Hl, Hk; done.
Qed.

Lemma patched_by_false (view : ImageView P) (g : bool)
    (blobs : list BlobCompressed) (k : Vector2i) :
  patched_by view g blobs k = false <->
  (forall b, In b blobs -> off_image view (window b g) = false ->
             ~ In k (decompress b)).
Proof.
  unfold patched_by. split.
  - intros He b Hin Hoff Hk.
    assert (existsb (fun b => negb (off_image view (window b g)) && memv k (decompress b))
              blobs = true); [|congruence].
    apply existsb_exists. exists b. split; [done|].
    rewrite Hoff. simpl. by apply memv_true.
  - intros H. apply not_true_is_false. intros He.
    apply existsb_exists in He as [b [Hin Hb]].
    apply andb_true_iff in Hb as [Hoff Hk]. apply negb_true_iff in Hoff.
    apply memv_true in Hk. by apply (H b).
Qed.

(** All tasks of bounded blobs return; the store is untouched outside the
    blobs whose window passes the test, and holds a value on them. *)
Lemma run_tasks_frame (image : ImageView P) (g : bool) (d : P)
    (blobs : list BlobCompressed) (s : gmap Vector2i P) :
  Forall (fun b => blob_bounded b = true) blobs ->
  exists s',
    run_tasks image g d blobs s = Some s' /\
    (forall k, patched_by image g blobs k = false -> s' !! k = s !! k) /\
    (forall k, patched_by image g blobs k = true -> is_Some (s' !! k)).
Proof.
  intros Hbs. revert s. induction Hbs as [|b blobs Hb _ IH]; intros s.
  - exists s. split; [done|]. split; [done|]. intros k Hk. simpl in Hk. done.
  - destruct (task_frame image b g d s Hb) as [o [s1 (Ht & Hf1 & Hp1)]].
    destruct (IH s1) as [s' (Hr & Hf & Hp)].
    exists s'. unfold run_tasks in *. cbn [foldM]. rewrite Ht.
    split; [done|]. unfold patched_by in *. cbn [existsb]. split.
    + intros k Hk. apply orb_false_iff in Hk as [Hk1 Hk2].
      rewrite Hf by done. by apply Hf1.
    + intros k Hk.
      destruct (existsb _ blobs) eqn:E; [by apply Hp|].
      rewrite orb_false_r in Hk. rewrite Hf by done. by apply Hp1.
Qed.

(** In flat mode the store after all tasks holds the default value on the
    blobs whose window passes the test. *)
Lemma run_tasks_flat (image : ImageView P) (d : P)
    (blobs : list BlobCompressed) (s : gmap Vector2i P) :
  Forall (fun b => blob_bounded b = true) blobs ->
  exists s',
    run_tasks image false d blobs s = Some s' /\
    forall k, s' !! k = if patched_by image false blobs k then Some d else s !! k.
Proof.
  intros Hbs. revert s. induction Hbs as [|b blobs Hb _ IH]; intros s.
  - by exists s.
  - unfold run_tasks in *. cbn [foldM].
    destruct (off_image image (window b false)) eqn:Hoff.
    + rewrite (task_early_exit image b false d s Hoff).
      destruct (IH s) as [s' (Hr & Hl)]. exists s'. split; [done|].
      intros k. rewrite Hl. unfold patched_by. cbn [existsb]. by rewrite Hoff.
    + destruct (task_flat image b d s Hb Hoff) as [s1 (Ht & Hl1)]. rewrite Ht.
      destruct (IH s1) as [s' (Hr & Hl)]. exists s'. split; [done|].
      intros k. rewrite Hl, Hl1. unfold patched_by. cbn [existsb]. rewrite Hoff.
      cbn [negb andb]. destruct (memv k (decompress b)); simpl; [|done].
      by destruct (existsb _ blobs).
Qed.

End Store.

(** ** The window and the extent of the image *)

Lemma window_ordered (b : BlobCompressed) (g : bool) :
  blob_bounded b = true ->
  vx (bmin (window b g)) <= vx (bmax (window b g)) /\
  vy (bmin (window b g)) <= vy (bmax (window b g)).
Proof.
  intros Hb. unfold blob_bounded in Hb. rewrite !andb_true_iff in Hb.
  destruct Hb as [[Hx Hy] _]. pose proof (margin_pos g).
  unfold window, expand, vx, vy in *. simpl. lia.
Qed.

(** On a box whose corners are in order, the task goes on when both
    corners of the box are coordinates of the image. *)
Lemma off_image_false_iff {P} (view : ImageView P) (bbox : BBox2i) :
  vx (bmin bbox) <= vx (bmax bbox) -> vy (bmin bbox) <= vy (bmax bbox) ->
  off_image view bbox = false <-> passes_edge_test view bbox.
Proof.
  intros Hx Hy. unfold off_image, passes_edge_test, on_image.
  rewrite !orb_false_iff. lia.
Qed.

Lemma off_image_true_iff {P} (view : ImageView P) (bbox : BBox2i) :
  vx (bmin bbox) <= vx (bmax bbox) -> vy (bmin bbox) <= vy (bmax bbox) ->
  off_image view bbox = true <-> ~ passes_edge_test view bbox.
Proof.
  intros Hx Hy. rewrite <- (off_image_false_iff view bbox Hx Hy).
  by destruct (off_image view bbox).
Qed.

(** A window with pixels lies inside the image when its lower corner is
    on the image and its upper corner at most one past the last column and
    row. *)
Lemma window_fits_bounds {P} (view : ImageView P) (bbox : BBox2i) :
  0 < width bbox -> 0 < height bbox ->
  window_fits view bbox <->
  (0 <= vx (bmin bbox) /\ 0 <= vy (bmin bbox) /\
   vx (bmax bbox) <= cols view /\ vy (bmax bbox) <= rows view).
Proof.
  intros Hw Hh. unfold window_fits. split.
  - intros Hfit.
    assert (H0 : In (0, 0) (coords (width bbox) (height bbox))).
    { apply in_coords. simpl. lia. }
    assert (H1 : In (width bbox - 1, height bbox - 1)
                   (coords (width bbox) (height bbox))).
    { apply in_coords. simpl. lia. }
    apply Hfit in H0, H1. unfold on_image, vadd, width, height, vx, vy in *.
    simpl in *. lia.
  - intros Hb q Hq. apply in_coords in Hq.
    unfold on_image, vadd, width, height, vx, vy in *. simpl. lia.
Qed.

(** For the window of a bounded blob, the test lets pass the windows that
    lie inside the image short of its last column and row. *)
Lemma edge_test_fits (b : BlobCompressed) (g : bool) {P} (view : ImageView P) :
  blob_bounded b = true ->
  off_image view (window b g) = false <->
  (window_fits view (window b g) /\ short_of_far_edge view (window b g)).
Proof.
  intros Hb. destruct (window_ordered b g Hb) as [Hx Hy].
  assert (Hw : 0 < width (window b g) /\ 0 < height (window b g)).
  { unfold blob_bounded in Hb. rewrite !andb_true_iff in Hb.
    destruct Hb as [[Hbx Hby] _]. pose proof (margin_pos g).
    unfold window, expand, width, height, vx, vy in *. simpl. lia. }
  rewrite (window_fits_bounds view (window b g)) by apply Hw.
  unfold off_image, short_of_far_edge. rewrite !orb_false_iff. lia.
Qed.

(** When the task goes on, the crop reads pixels of the image only. *)
Lemma crop_on_image {P} (view : ImageView P) (bbox : BBox2i) (q : Vector2i) :
  off_image view bbox = false -> In q (coords (width bbox) (height bbox)) ->
  on_image view (vadd (bmin bbox) q).
Proof.
  intros Hoff Hq. apply in_coords in Hq. unfold off_image in Hoff.
  rewrite !orb_false_iff in Hoff. unfold on_image, width, height, vadd, vx, vy in *.
  simpl. lia.
Qed.

(** * The claims *)

Section Overlay.
Context {P : Type} `{PT : PixelType P}.

(** C1: a pixel read of the overlay returns the value the sparse patch
    store holds at (x, y) when the store contains that coordinate, and the
    value of the wrapped source image at (x, y) otherwise. *)
Theorem pixel_read_store_then_source (v : @InpaintView P) (x y : Z) :
  pixel_at v x y =
  match m_patches v !! (x, y) with
  | Some patch => patch
  | None => pix (m_child v) x y
  end.
Proof. reflexivity. Qed.

(** C10: for a constructed overlay, cols() and rows() are those of the
    wrapped source image, and planes() is 1. *)
Theorem overlay_extent (image : ImageView P) (bindex : list BlobCompressed)
    (use_grassfire : bool) (d : P) (v : InpaintView) :
  new_InpaintView image bindex use_grassfire d = Some v ->
  iv_cols v = cols image /\ iv_rows v = rows image /\ iv_planes v = 1.
Proof.
  unfold new_InpaintView. intros Hv.
  destruct (run_tasks image use_grassfire d bindex ∅); [|done].
  injection Hv as <-. done.
Qed.

(** The overlay of bounded blobs is constructed, over the image it was
    given and the store of its tasks. *)
Lemma new_InpaintView_some (image : ImageView P) (blobs : list BlobCompressed)
    (g : bool) (d : P) :
  Forall (fun b => blob_bounded b = true) blobs ->
  exists s,
    run_tasks image g d blobs ∅ = Some s /\
    new_InpaintView image blobs g d = Some (mkInpaintView image s g d).
Proof.
  intros Hbs. destruct (run_tasks_frame image g d blobs ∅ Hbs) as [s [Hr _]].
  exists s. split; [done|]. unfold new_InpaintView. by rewrite Hr.
Qed.



(** C7: in both modes, the store after the task of a blob differs from
    the store before it on pixels of the blob only: a coordinate of the
    window that is not a pixel of the blob is never inserted.  (When the
    task does not exit early, every pixel of the blob is inserted.) *)
Theorem store_written_on_blob_only (view : ImageView P) (b : BlobCompressed)
    (g : bool) (d : P) (s : gmap Vector2i P) :
  blob_bounded b = true ->
  exists o s',
    InpaintTask view b g d s = Some (o, s') /\
    (forall k, ~ In k (decompress b) -> s' !! k = s !! k) /\
    (forall k, is_Some (s' !! k) -> is_Some (s !! k) \/ In k (decompress b)) /\
    (o = Finished -> forall k, In k (decompress b) -> is_Some (s' !! k)).
Proof.
  intros Hb. destruct (task_frame view b g d s Hb) as [o [s' (Ht & Hf & Hp)]].
  exists o, s'. split; [done|].
  assert (Hframe : forall k, ~ In k (decompress b) -> s' !! k = s !! k).
  { intros k Hk. apply Hf. apply memv_false in Hk. rewrite Hk. apply andb_false_r. }
  split; [done|]. split.
  - intros k Hk. destruct (memv k (decompress b)) eqn:E.
    + right. by apply memv_true.
    + left. rewrite <- Hframe; [done|]. by apply memv_false.
  - intros -> k Hk. apply Hp.
    destruct (off_image view (window b g)) eqn:Hoff.
    + rewrite (task_early_exit view b g d s Hoff) in Ht. discriminate.
    + simpl. by apply memv_true.
Qed.

End Overlay.

(** ** The claims on the sample image *)

Lemma overlay_extent_witness :
  exists v,
    new_InpaintView (PT := FloatPixel) sample_image [sample_blob] false black = Some v /\
    iv_cols v = 10 /\ iv_rows v = 10 /\ iv_planes v = 1.
Proof.
  destruct (new_InpaintView (PT := FloatPixel) sample_image [sample_blob] false black)
    as [v|] eqn:E.
  - exists v. split; [reflexivity|].
    exact (overlay_extent (PT := FloatPixel) sample_image [sample_blob] false black v E).
  - vm_compute in E. discriminate E.
Defined.





Lemma store_written_on_blob_only_witness :
  exists o s',
    InpaintTask (PT := FloatPixel) sample_image sample_blob false black ∅ = Some (o, s') /\
    s' !! (4, 5) = None /\ s' !! (6, 6) = None.
Proof.
  destruct (store_written_on_blob_only (PT := FloatPixel) sample_image sample_blob
              false black ∅ eq_refl) as [o [s' (Ht & Hf & _)]].
  exists o, s'. split; [exact Ht|].
  split; rewrite Hf; try apply lookup_empty; intros [H|[]]; discriminate H.
Defined.

(** ** The order of the updates *)

Lemma zrange_sorted (n : Z) : StronglySorted Z.lt (zrange n).
Proof.
  unfold zrange. generalize 0%nat as a.
  induction (Z.to_nat n) as [|k IH]; intros a; simpl; constructor.
  - apply IH.
  - apply Forall_forall. intros x Hx.
    apply list_elem_of_In, in_map_iff in Hx as [y [<- Hy]].
    apply in_seq in Hy. lia.
Qed.

Lemma blocks_sorted (distance : ImageView Z) (cs : list Vector2i) (ds : list Z) :
  StronglySorted Z.lt ds ->
  StronglySorted (by_distance distance)
    (flat_map (fun d => List.filter (fun p => pix distance (vx p) (vy p) =? d) cs) ds).
Proof.
  induction 1 as [|d ds Hs IH Hd]; simpl; [constructor|].
  apply StronglySorted_app_2; [| |exact IH].
  - intros p q Hp Hq. apply list_elem_of_In, filter_In in Hp as [_ Hp].
    apply list_elem_of_In, in_flat_map in Hq as [d' [Hd' Hq]].
    apply filter_In in Hq as [_ Hq]. apply Z.eqb_eq in Hp, Hq.
    rewrite Forall_forall in Hd. apply list_elem_of_In, Hd in Hd'.
    unfold by_distance. lia.
  - clear IH Hs Hd. induction cs as [|p cs IHc]; simpl; [constructor|].
    destruct (pix distance (vx p) (vy p) =? d) eqn:E; [|exact IHc].
    constructor; [exact IHc|]. apply Forall_forall. intros q Hq.
    apply list_elem_of_In, filter_In in Hq as [_ Hq]. apply Z.eqb_eq in E, Hq.
    unfold by_distance. lia.
Qed.

(** Whatever the distance field, the order built by the task ascends in
    it. *)
Lemma processing_order_sorted (distance : ImageView Z) (md w h : Z) :
  StronglySorted (by_distance distance) (processing_order distance md w h).
Proof.
  unfold processing_order. apply blocks_sorted.
  assert (H := zrange_sorted md). induction H as [|k l Hs IH Hk]; simpl; constructor.
  - exact IH.
  - apply Forall_forall. intros x Hx.
    apply list_elem_of_In, in_map_iff in Hx as [y [<- Hy]].
    rewrite Forall_forall in Hk. apply list_elem_of_In, Hk in Hy. lia.
Qed.

(** The sum of an update depends on the eight neighbours only. *)
Lemma conv_sum_neighbours {P} `{PT : PixelType P} (img1 img2 : ImageView P)
    (c : nat) (p : Vector2i) :
  (forall wq, In wq (stencil p) ->
     get_channel (pix img1 (vx (snd wq)) (vy (snd wq))) c =
     get_channel (pix img2 (vx (snd wq)) (vy (snd wq))) c) ->
  conv_sum img1 c p = conv_sum img2 c p.
Proof.
  unfold conv_sum. generalize (stencil p) as l. generalize accum_zero as a.
  intros a l. revert a. induction l as [|wq l IH]; intros a Hl; [done|].
  cbn [fold_left]. rewrite (Hl wq (or_introl eq_refl)).
  apply IH. intros wq' Hin. apply Hl. by right.
Qed.

(** ** Counting the updates *)

Lemma NoDup_flat_map {A B} (f : A -> list B) (l : list A) :
  NoDup l ->
  (forall x, In x l -> NoDup (f x)) ->
  (forall x y b, In x l -> In y l -> In b (f x) -> In b (f y) -> x = y) ->
  NoDup (flat_map f l).
Proof.
  induction 1 as [|x l Hx Hl IH]; intros Hf Hdis; simpl; [constructor|].
  apply NoDup_app. split; [apply Hf; by left|]. split.
  - intros b Hb Hb'. apply list_elem_of_In in Hb, Hb'.
    apply in_flat_map in Hb' as [y [Hy Hby]].
    assert (x = y) by (apply (Hdis x y b); [by left|by right|done..]).
    subst y. apply Hx. by apply list_elem_of_In.
  - apply IH.
    + intros y Hy. apply Hf. by right.
    + intros y z b Hy Hz. apply Hdis; by right.
Qed.

Lemma zrange_NoDup (n : Z) : NoDup (zrange n).
Proof.
  unfold zrange. apply (NoDup_fmap_2 Z.of_nat). apply NoDup_seq.
Qed.

Lemma coords_NoDup (w h : Z) : NoDup (coords w h).
Proof.
  unfold coords. apply NoDup_flat_map.
  - apply zrange_NoDup.
  - intros i _. apply (NoDup_fmap_2 (fun j => (i, j))). apply zrange_NoDup.
  - intros i i' b _ _ Hb Hb'.
    apply in_map_iff in Hb as [j [<- _]]. apply in_map_iff in Hb' as [j' [Heq _]].
    congruence.
Qed.

Lemma processing_order_NoDup (distance : ImageView Z) (md w h : Z) :
  NoDup (processing_order distance md w h).
Proof.
  unfold processing_order. apply NoDup_flat_map.
  - assert (Hinj : Inj eq eq (fun k : Z => k + 1)) by (intros a b Hab; lia).
    apply (NoDup_fmap_2 (fun k => k + 1)). apply zrange_NoDup.
  - intros d _.
    apply NoDup_ListNoDup, List.NoDup_filter, NoDup_ListNoDup, coords_NoDup.
  - intros d d' p _ _ Hp Hp'.
    apply filter_In in Hp as [_ Hp]. apply filter_In in Hp' as [_ Hp'].
    apply Z.eqb_eq in Hp, Hp'. congruence.
Qed.

Lemma memv_single (p q : Vector2i) : memv p [q] = true <-> q = p.
Proof. rewrite memv_true. simpl. tauto. Qed.






Lemma sweep_schedule {P} `{PT : PixelType P} (c : nat) (l : list Vector2i)
    (img : ImageView P) :
  sweep l c img =
  foldM (fun img cp => convolve (fst cp) img (snd cp)) (map (fun p => (c, p)) l) img.
Proof.
  unfold sweep. revert img. induction l as [|q l IHl]; intros img; [done|].
  cbn [foldM map fst snd]. destruct (convolve c img q); [apply IHl|done].
Qed.

Lemma sweeps_schedule {P} `{PT : PixelType P} (c : nat) (order : list Vector2i)
    (n : nat) (img : ImageView P) :
  iterM n (sweep order c) img =
  foldM (fun img cp => convolve (fst cp) img (snd cp))
    (concat (repeat (map (fun p => (c, p)) order) n)) img.
Proof.
  revert img. induction n as [|n IHn]; intros img; [done|].
  cbn [iterM repeat concat]. rewrite foldM_app, sweep_schedule.
  destruct (foldM _ (map _ order) img); [apply IHn|done].
Qed.

(** The diffusion is the run of its schedule. *)
Lemma diffusion_schedule {P} `{PT : PixelType P} (cropped_copy : ImageView P)
    (mask : ImageView Z) (w h : Z) :
  let distance := grassfire mask in
  let max_distance := max_pixel_value distance in
  let order := processing_order distance max_distance w h in
  diffusion cropped_copy mask w h =
  foldM (fun img cp => convolve (fst cp) img (snd cp))
    (update_schedule order (sweep_count max_distance) num_channels) cropped_copy.
Proof.
  intros distance max_distance order. unfold diffusion, update_schedule.
  fold distance. fold max_distance. fold order.
  generalize (sweep_count max_distance) as n. intros n.
  generalize (seq 0 num_channels) as cs. intros cs. revert cropped_copy.
  induction cs as [|c cs IH]; intros img; [done|].
  cbn [foldM flat_map]. rewrite foldM_app, sweeps_schedule.
  destruct (foldM _ (concat _) img); [apply IH|done].
Qed.

(** C3, as the code has it: in diffusion mode the interior pixels of the
    window are processed in ascending order of the distance field: the
    diffusion is the run, front to back, of the updates of its schedule,
    which repeats for every channel the sweep over the processing order,
    and that order holds every interior pixel once, by ascending distance;
    an update fills a pixel from the current values of its eight
    neighbours, whatever their distance: two windows that agree on the
    eight neighbours of a pixel give it the same sum. *)
Theorem order_ascends_updates_read_neighbours {P} `{PT : PixelType P}
    (mask : ImageView Z) :
  let distance := grassfire mask in
  let max_distance := max_pixel_value distance in
  let order := processing_order distance max_distance (cols mask) (rows mask) in
  let update := fun (img : ImageView P) (cp : nat * Vector2i) =>
                  convolve (fst cp) img (snd cp) in
  (forall cropped_copy : ImageView P,
      diffusion cropped_copy mask (cols mask) (rows mask) =
      foldM update
        (flat_map
           (fun c => concat (repeat (map (fun p => (c, p)) order)
                               (sweep_count max_distance)))
           (seq 0 num_channels))
        cropped_copy) /\
  (forall (cp : nat * Vector2i) (rest : list (nat * Vector2i)) (img : ImageView P),
      foldM update (cp :: rest) img =
      match convolve (fst cp) img (snd cp) with
      | Some img' => foldM update rest img'
      | None => None
      end) /\
  (forall (c : nat) (img : ImageView P),
      sweep order c img = foldM update (map (fun p => (c, p)) order) img) /\
  StronglySorted (by_distance distance) order /\
  NoDup order /\
  (forall p, In p order <->
             (In p (coords (cols mask) (rows mask)) /\ pix mask (vx p) (vy p) <> 0)) /\
  (forall (img1 img2 : ImageView P) (c : nat) (p : Vector2i),
      cols img1 = cols img2 -> rows img1 = rows img2 -> inner_pixel img1 p ->
      (forall wq, In wq (stencil p) ->
         get_channel (pix img1 (vx (snd wq)) (vy (snd wq))) c =
         get_channel (pix img2 (vx (snd wq)) (vy (snd wq))) c) ->
      convolve c img1 p = Some (updated img1 c p) /\
      convolve c img2 p = Some (updated img2 c p) /\
      conv_sum img1 c p = conv_sum img2 c p).
Proof.
  intros distance max_distance order update.
  split; [intros cropped_copy; apply diffusion_schedule|].
  split; [reflexivity|].
  split; [intros c img; apply sweep_schedule|].
  split; [apply processing_order_sorted|].
  split; [apply processing_order_NoDup|].
  split; [intros p; apply in_order_of_mask|].
  intros img1 img2 c p Hc Hr Hin Hag.
  split; [by apply convolve_inner|]. split.
  - apply convolve_inner. unfold inner_pixel in *. by rewrite <- Hc, <- Hr.
  - by apply conv_sum_neighbours.
Qed.

(** C3, as it is stated, fails on the blob of two pixels: both are at
    distance 1, the windows of [flat_image] and [spoiled_image] agree on
    every pixel at a distance below 1, (10,10) is the first pixel of the
    order, and yet its first update gives different values on the two
    windows, for it reads (10,11). *)
Lemma filled_from_equal_distance :
  pix pair_distance 10 10 = 1 /\ pix pair_distance 10 11 = 1 /\
  processing_order pair_distance (max_pixel_value pair_distance) 21 22
    = [(10, 10); (10, 11)] /\
  (forall q, In q (coords 21 22) -> pix pair_distance (vx q) (vy q) < 1 ->
     pix (crop flat_image pair_window) (vx q) (vy q) =
     pix (crop spoiled_image pair_window) (vx q) (vy q)) /\
  match convolve (PT := FloatPixel) 0 (crop flat_image pair_window) (10, 10),
        convolve (PT := FloatPixel) 0 (crop spoiled_image pair_window) (10, 10) with
  | Some r1, Some r2 => pix r1 10 10 <> pix r2 10 10
  | _, _ => False
  end.
Proof.
  split; [by vm_compute|]. split; [by vm_compute|]. split; [by vm_compute|].
  split.
  - intros [i j] Hq Hd. unfold crop, flat_image, spoiled_image. cbn [pix vx vy fst snd].
    change (vx (bmin pair_window)) with 5. change (vy (bmin pair_window)) with 5.
    destruct ((5 + i =? 15) && (5 + j =? 16)) eqn:E; [|reflexivity].
    apply andb_true_iff in E as [Hi Hj]. apply Z.eqb_eq in Hi, Hj.
    assert (i = 10) as -> by lia. assert (j = 11) as -> by lia.
    vm_compute in Hd. discriminate Hd.
  - vm_compute. intros H. discriminate H.
Qed.


(** ** The kernel on [float] pixels *)

Section Rounding.
Variables prec emax : Z.










End Rounding.



(** It does not keep the interval of the values it reads: eight
    neighbours at 100 give 100 + 2^-17. *)
Lemma kernel_float_leaves_interval :
  let v := float_of_Z 100 in
  accum_store (kernel (PT := FloatPixel) v v v v v v v v)
  = S754_finite false 13107201 (-17) /\
  v = S754_finite false 13107200 (-17).
Proof. by vm_compute. Qed.

(** ** The range of the diffusion *)

Lemma conv_sum_kernel {P} `{PT : PixelType P} (img : ImageView P) (c : nat)
    (p : Vector2i) :
  let x := vx p in
  let y := vy p in
  let ch i j := get_channel (pix img i j) c in
  conv_sum img c p =
  kernel (ch (x - 1) (y - 1)) (ch (x - 1) (y + 1)) (ch (x + 1) (y - 1))
    (ch (x + 1) (y + 1)) (ch (x + 1) y) (ch (x - 1) y) (ch x (y + 1)) (ch x (y - 1)).
Proof. reflexivity. Qed.




(** ** Windows with and without valid pixels *)





(** ** Region-limited pre-evaluation *)

Section Prerasterize.
Context {P : Type}.

(** The [prerasterize] of the child's type, with its contract: on the
    region it was asked for, the view it returns has the pixels of the
    child. *)
Variable child_prerasterize : ImageView P -> BBox2i -> ImageView P.
Hypothesis child_prerasterize_agrees :
  forall child R x y,
    bbox_contains R x y -> pix (child_prerasterize child R) x y = pix child x y.

(** C9: the overlay that [prerasterize] returns for a region R has the
    store of the original overlay, built by the private constructor, which
    runs no task, and reads as the original on every coordinate of R. *)
Theorem prerasterize_agrees (v : @InpaintView P) (R : BBox2i) :
  prerasterize child_prerasterize v R =
    copy_InpaintView (child_prerasterize (m_child v) R) v
      (m_use_grassfire v) (m_default_inpaint_val v) /\
  m_patches (prerasterize child_prerasterize v R) = m_patches v /\
  forall x y, bbox_contains R x y ->
    pixel_at (prerasterize child_prerasterize v R) x y = pixel_at v x y.
Proof.
  split; [reflexivity|]. split; [reflexivity|].
  intros x y Hxy. unfold pixel_at, prerasterize, copy_InpaintView.
  cbn [m_patches m_child]. destruct (contains (m_patches v) x y); [done|].
  by apply child_prerasterize_agrees.
Qed.

End Prerasterize.

Lemma prerasterize_agrees_witness :
  pixel_at (prerasterize clipped sample_overlay (mkBBox (4, 4) (7, 7))) 5 5
    = pixel_at sample_overlay 5 5 /\
  pixel_at (prerasterize clipped sample_overlay (mkBBox (4, 4) (7, 7))) 6 4
    = pixel_at sample_overlay 6 4.
Proof.
  assert (Hclip : forall child R x y,
            bbox_contains R x y -> pix (clipped child R) x y = pix child x y).
  { intros child R x y [Hx Hy]. unfold clipped. cbn [pix].
    rewrite (proj2 (Z.leb_le _ _)), (proj2 (Z.ltb_lt _ _)),
            (proj2 (Z.leb_le _ _)), (proj2 (Z.ltb_lt _ _)) by lia.
    reflexivity. }
  destruct (prerasterize_agrees clipped Hclip sample_overlay (mkBBox (4, 4) (7, 7)))
    as (_ & _ & H).
  split; apply H; unfold bbox_contains; simpl; lia.
Defined.

(** The first update of the diffusion on the window of [spoiled_image]:
    the pixel (10,10) takes 0.073235 times the value of the pixel below it,
    the other seven neighbours being 0. *)
Example first_update_value :
  match convolve (PT := FloatPixel) 0 (crop spoiled_image pair_window) (10, 10) with
  | Some img =>
      pix img 10 10 = float_accumulate black w_orth (float_of_Z (- 10 ^ 38)) /\
      SFltb (pix img 10 10) (float_of_Z (- 10 ^ 36)) = true
  | None => False
  end.
Proof. by vm_compute. Qed.

(** The blob of two pixels is updated 10 times per pixel, its distance
    field having the maximum 1. *)
Example pair_blob_sweeps :
  max_pixel_value pair_distance = 1 /\
  updates_of (update_schedule
                (processing_order pair_distance (max_pixel_value pair_distance) 21 22)
                (sweep_count (max_pixel_value pair_distance)) 1) 0 (10, 11) = 10%nat.
Proof. by vm_compute. Qed.

(** The upper corner of the window counts as a coordinate: in the 10 x 10
    image, a window whose upper corner has the abscissa 10 fails the test,
    though its last column is the column 9, and the task of its blob exits
    early. *)
Example upper_corner_counts :
  window (mkBlob (mkBBox (8, 5) (9, 6)) [(8, 5)]) false = mkBBox (7, 4) (10, 7) /\
  off_image sample_image (mkBBox (7, 4) (10, 7)) = true /\
  off_image sample_image (mkBBox (6, 4) (9, 7)) = false /\
  InpaintTask (PT := FloatPixel) sample_image
    (mkBlob (mkBBox (8, 5) (9, 6)) [(8, 5)]) false black ∅ = Some (EarlyExit, ∅).
Proof. repeat split; by vm_compute. Qed.

(** * Further properties of the view and its tasks *)

Section Determinism.
Context {P : Type} `{PT : PixelType P}.

(** The patch of a task is a function of the image and the blob: the
    store the task was given shows through outside the blob only. *)
Lemma task_patch (view : ImageView P) (b : BlobCompressed) (g : bool) (d : P) :
  blob_bounded b = true -> off_image view (window b g) = false ->
  exists patch : Vector2i -> P,
    forall s, exists s',
      InpaintTask view b g d s = Some (Finished, s') /\
      forall k, s' !! k = if memv k (decompress b) then Some (patch k) else s !! k.
Proof.
  intros Hb Hoff. destruct g.
  - destruct (make_mask_blob b 10 ltac:(lia) Hb) as [mask (Hm & Hmc & Hmr & Hmask)].
    destruct (diffusion_blob (fun _ => True) view b mask Hb Hmc Hmr Hmask I)
      as [patched (Hd & Hc & Hr & _)].
    { done. }
    exists (fun k => pix patched (vx (vsub k (bmin (window b true))))
                       (vy (vsub k (bmin (window b true))))).
    intros s. eexists. split.
    + apply (task_finished view b true d s mask patched); done.
    + intros k.
      apply (patch_lookup b 10 mask patched s k ltac:(lia) Hb Hmask Hc Hr).
  - exists (fun _ => d). intros s.
    destruct (task_flat view b d s Hb Hoff) as [s' (Ht & Hl)]. by exists s'.
Qed.

Lemma run_tasks_app (image : ImageView P) (g : bool) (d : P)
    (l1 l2 : list BlobCompressed) (s : gmap Vector2i P) :
  run_tasks image g d (l1 ++ l2) s =
  match run_tasks image g d l1 s with
  | Some s1 => run_tasks image g d l2 s1
  | None => None
  end.
Proof. unfold run_tasks. apply foldM_app. Qed.

(** The store after all tasks holds, on a pixel, the patch of the last
    task in the order of the inserts whose blob has the pixel. *)
Lemma run_tasks_last (image : ImageView P) (g : bool) (d : P)
    (l1 l2 : list BlobCompressed) (b : BlobCompressed) (k : Vector2i)
    (s : gmap Vector2i P) :
  Forall (fun b' => blob_bounded b' = true) (l1 ++ b :: l2) ->
  off_image image (window b g) = false -> In k (decompress b) ->
  patched_by image g l2 k = false ->
  exists s' s_b,
    run_tasks image g d (l1 ++ b :: l2) s = Some s' /\
    InpaintTask image b g d ∅ = Some (Finished, s_b) /\
    s' !! k = s_b !! k.
Proof.
  intros Hbs Hoff Hk Hl2. apply Forall_app in Hbs as [Hb1 Hb2].
  apply Forall_cons in Hb2 as [Hb Hb2].
  destruct (run_tasks_frame image g d l1 s Hb1) as [s1 (Hr1 & _ & _)].
  destruct (task_patch image b g d Hb Hoff) as [patch Hpatch].
  destruct (Hpatch s1) as [s2 (Ht2 & Hs2)].
  destruct (Hpatch ∅) as [s_b (Htb & Hsb)].
  destruct (run_tasks_frame image g d l2 s2 Hb2) as [s' (Hr2 & Hf2 & _)].
  exists s', s_b. split; [|split; [exact Htb|]].
  - rewrite run_tasks_app, Hr1. unfold run_tasks in *. cbn [foldM].
    rewrite Ht2. exact Hr2.
  - apply memv_true in Hk. by rewrite (Hf2 k Hl2), Hs2, Hsb, Hk.
Qed.

Lemma patched_by_perm (image : ImageView P) (g : bool)
    (l l' : list BlobCompressed) (k : Vector2i) :
  Permutation l l' -> patched_by image g l k = patched_by image g l' k.
Proof.
  intros Hp. unfold patched_by.
  induction Hp as [|x l l' _ IH|x y l|l l' l'' _ IH1 _ IH2]; simpl.
  - done.
  - by rewrite IH.
  - by rewrite !orb_assoc, (orb_comm (negb _ && _)).
  - by rewrite IH1.
Qed.

(** Among the elements on which a test holds, there is a last one. *)
Lemma last_witness {A} (f : A -> bool) (l : list A) :
  existsb f l = true ->
  exists l1 x l2, l = l1 ++ x :: l2 /\ f x = true /\ existsb f l2 = false.
Proof.
  induction l as [|a l IH]; intros He; [done|]. simpl in He.
  destruct (existsb f l) eqn:E.
  - destruct (IH eq_refl) as (l1 & x & l2 & -> & Hx & Hl2).
    by exists (a :: l1), x, l2.
  - rewrite orb_false_r in He. by exists [], a, l.
Qed.

End Determinism.

Section OverlayOrder.
Context {P : Type} `{PT : PixelType P}.

Lemma processed_inside (image : ImageView P) (g : bool) (b : BlobCompressed) :
  blob_bounded b = true ->
  off_image image (window b g) = false <-> passes_edge_test image (window b g).
Proof. intros Hb. apply off_image_false_iff; by apply window_ordered. Qed.

(** X1: in flat mode the overlay does not depend on the order in which
    the tasks insert their patches, whether the blobs overlap or not: every
    permutation of the blobs gives the same store. *)
Theorem flat_overlay_any_order (image : ImageView P)
    (blobs blobs' : list BlobCompressed) (d : P) :
  Permutation blobs blobs' ->
  Forall (fun b => blob_bounded b = true) blobs ->
  exists v,
    new_InpaintView image blobs false d = Some v /\
    new_InpaintView image blobs' false d = Some v.
Proof.
  intros Hp Hbs.
  assert (Hbs' : Forall (fun b => blob_bounded b = true) blobs').
  { rewrite Forall_forall in *. intros b Hb. apply Hbs.
    apply list_elem_of_In. apply list_elem_of_In in Hb.
    by apply (Permutation_in b (Permutation_sym Hp)). }
  destruct (run_tasks_flat image d blobs ∅ Hbs) as [s (Hr & Hl)].
  destruct (run_tasks_flat image d blobs' ∅ Hbs') as [s' (Hr' & Hl')].
  assert (s' = s) as ->.
  { apply map_eq. intros k. by rewrite Hl, Hl', (patched_by_perm image false _ _ k Hp). }
  exists (mkInpaintView image s false d). unfold new_InpaintView.
  by rewrite Hr, Hr'.
Qed.

(** X2: where blobs overlap, the last insert wins: on a pixel of a blob
    [b] that no blob after [b] in the order of the inserts has, the store
    of the overlay holds what the task of [b] alone writes. *)
Theorem last_insert_wins (image : ImageView P) (g : bool) (d : P)
    (l1 l2 : list BlobCompressed) (b : BlobCompressed) (k : Vector2i) :
  Forall (fun b' => blob_bounded b' = true) (l1 ++ b :: l2) ->
  passes_edge_test image (window b g) -> In k (decompress b) ->
  (forall b', In b' l2 -> passes_edge_test image (window b' g) ->
              ~ In k (decompress b')) ->
  exists v s_b,
    new_InpaintView image (l1 ++ b :: l2) g d = Some v /\
    InpaintTask image b g d ∅ = Some (Finished, s_b) /\
    m_patches v !! k = s_b !! k /\ is_Some (s_b !! k).
Proof.
  intros Hbs Hin Hk Hl2.
  assert (Hb : blob_bounded b = true).
  { apply Forall_app in Hbs as [_ Hbs]. by apply Forall_cons in Hbs as [Hb _]. }
  assert (Hb2 : Forall (fun b' => blob_bounded b' = true) l2).
  { apply Forall_app in Hbs as [_ Hbs]. by apply Forall_cons in Hbs as [_ Hb2]. }
  assert (Hoff : off_image image (window b g) = false) by by apply processed_inside.
  destruct (run_tasks_last image g d l1 l2 b k ∅ Hbs Hoff Hk) as [s' [s_b (Hr & Ht & He)]].
  { apply patched_by_false. intros b' Hb' Ho. apply Hl2; [done|].
    apply processed_inside; [|done]. rewrite Forall_forall in Hb2.
    apply Hb2. by apply list_elem_of_In. }
  exists (mkInpaintView image s' g d), s_b. unfold new_InpaintView. rewrite Hr.
  split; [done|]. split; [done|]. split; [done|].
  destruct (task_patch image b g d Hb Hoff) as [patch Hpatch].
  destruct (Hpatch ∅) as [s0 (Ht0 & Hs0)]. rewrite Ht in Ht0.
  injection Ht0 as <-. rewrite Hs0. apply memv_true in Hk. by rewrite Hk.
Qed.

(** X3: in both modes, when no two processed blobs of the catalog share
    a pixel, the overlay does not depend on the order in which the tasks
    insert their patches. *)
Theorem disjoint_overlay_any_order (image : ImageView P) (g : bool) (d : P)
    (blobs blobs' : list BlobCompressed) :
  Permutation blobs blobs' ->
  Forall (fun b => blob_bounded b = true) blobs ->
  (forall b1 b2 k, In b1 blobs -> In b2 blobs ->
     passes_edge_test image (window b1 g) -> passes_edge_test image (window b2 g) ->
     In k (decompress b1) -> In k (decompress b2) -> b1 = b2) ->
  exists v,
    new_InpaintView image blobs g d = Some v /\
    new_InpaintView image blobs' g d = Some v.
Proof.
  intros Hp Hbs Hdis.
  assert (Hbs' : Forall (fun b => blob_bounded b = true) blobs').
  { rewrite Forall_forall in *. intros b Hb. apply Hbs.
    apply list_elem_of_In. apply list_elem_of_In in Hb.
    by apply (Permutation_in b (Permutation_sym Hp)). }
  destruct (run_tasks_frame image g d blobs ∅ Hbs) as [s (Hr & Hf & _)].
  destruct (run_tasks_frame image g d blobs' ∅ Hbs') as [s' (Hr' & Hf' & _)].
  assert (s' = s) as ->.
  { apply map_eq. intros k.
    destruct (patched_by image g blobs k) eqn:E.
    - pose proof E as E'. rewrite (patched_by_perm image g _ _ k Hp) in E'.
      apply last_witness in E as (l1 & b & l2 & Hl & Hfb & Hl2).
      apply last_witness in E' as (l1' & b' & l2' & Hl' & Hfb' & Hl2').
      apply andb_true_iff in Hfb as [Hoff Hk]. apply negb_true_iff in Hoff.
      apply andb_true_iff in Hfb' as [Hoff' Hk']. apply negb_true_iff in Hoff'.
      apply memv_true in Hk, Hk'.
      assert (Hinb : In b blobs) by (rewrite Hl; apply in_elt).
      assert (Hinb' : In b' blobs).
      { apply (Permutation_in b' (Permutation_sym Hp)). rewrite Hl'. apply in_elt. }
      assert (Hbb : forall x, In x blobs -> blob_bounded x = true).
      { intros x Hx. rewrite Forall_forall in Hbs. apply Hbs. by apply list_elem_of_In. }
      assert (b' = b) as ->.
      { apply (Hdis b' b k); try done; apply processed_inside; auto. }
      rewrite Hl in Hbs. rewrite Hl' in Hbs'.
      destruct (run_tasks_last image g d l1 l2 b k ∅ Hbs Hoff Hk Hl2)
        as [t [s_b (Hrt & Ht & He)]].
      destruct (run_tasks_last image g d l1' l2' b k ∅ Hbs' Hoff Hk Hl2')
        as [t' [s_b' (Hrt' & Ht' & He')]].
      rewrite <- Hl in Hrt. rewrite <- Hl' in Hrt'.
      rewrite Hr in Hrt. rewrite Hr' in Hrt'.
      injection Hrt as <-. injection Hrt' as <-.
      rewrite Ht in Ht'. injection Ht' as <-. by rewrite He, He'.
    - rewrite (Hf k E). apply Hf'. by rewrite <- (patched_by_perm image g _ _ k Hp). }
  exists (mkInpaintView image s g d). unfold new_InpaintView.
  by rewrite Hr, Hr'.
Qed.

(** X4: the store of a constructed overlay holds exactly the pixels of
    the blobs that pass the test of the task: those whose window lies inside
    the image and stops short of its last column and its last row.  (The
    pixels of a blob whose window reaches the last column or row are not in
    the store, though the window lies inside the image.) *)
Theorem store_holds_processed_pixels (image : ImageView P) (g : bool) (d : P)
    (blobs : list BlobCompressed) :
  Forall (fun b => blob_bounded b = true) blobs ->
  exists v,
    new_InpaintView image blobs g d = Some v /\
    forall k, is_Some (m_patches v !! k) <->
              exists b, In b blobs /\
                        (window_fits image (window b g) /\
                         short_of_far_edge image (window b g)) /\
                        In k (decompress b).
Proof.
  intros Hbs. destruct (run_tasks_frame image g d blobs ∅ Hbs) as [s (Hr & Hf & Hp)].
  exists (mkInpaintView image s g d). unfold new_InpaintView. rewrite Hr.
  split; [done|]. intros k. cbn [m_patches]. split.
  - intros Hs. destruct (patched_by image g blobs k) eqn:E.
    + apply existsb_exists in E as [b [Hb Hfb]].
      apply andb_true_iff in Hfb as [Hoff Hk]. apply negb_true_iff in Hoff.
      exists b. split; [done|]. split; [|by apply memv_true].
      apply edge_test_fits; [|done]. rewrite Forall_forall in Hbs.
      apply Hbs. by apply list_elem_of_In.
    + rewrite (Hf k E), lookup_empty in Hs. by destruct Hs.
  - intros [b (Hb & Hin & Hk)]. apply Hp. apply existsb_exists. exists b.
    split; [done|]. apply andb_true_iff. split; [|by apply memv_true].
    apply negb_true_iff. apply edge_test_fits; [|done].
    rewrite Forall_forall in Hbs. apply Hbs. by apply list_elem_of_In.
Qed.

(** X5: a task that finishes has cropped the source inside its extent:
    every pixel of its window is a pixel of the image. *)
Theorem finished_task_reads_image (view : ImageView P) (b : BlobCompressed)
    (g : bool) (d : P) (s s' : gmap Vector2i P) :
  InpaintTask view b g d s = Some (Finished, s') ->
  forall i j, 0 <= i < cols (crop view (window b g)) ->
              0 <= j < rows (crop view (window b g)) ->
    on_image view (vx (bmin (window b g)) + i, vy (bmin (window b g)) + j).
Proof.
  intros Ht i j Hi Hj.
  destruct (off_image view (window b g)) eqn:Hoff.
  - rewrite (task_early_exit view b g d s Hoff) in Ht. discriminate Ht.
  - apply (crop_on_image view (window b g) (i, j) Hoff). by apply in_coords.
Qed.

(** X6: in diffusion mode the default value is never used: two overlays
    that differ in it only have the same store. *)
Theorem diffusion_ignores_default (image : ImageView P)
    (blobs : list BlobCompressed) (d d' : P) :
  option_map m_patches (new_InpaintView image blobs true d) =
  option_map m_patches (new_InpaintView image blobs true d').
Proof.
  unfold new_InpaintView.
  assert (Hrun : forall s, run_tasks image true d blobs s = run_tasks image true d' blobs s).
  { unfold run_tasks. induction blobs as [|b blobs IH]; intros s; [done|].
    cbn [foldM].
    change (InpaintTask image b true d s) with (InpaintTask image b true d' s).
    destruct (InpaintTask image b true d' s) as [[o s1]|]; [apply IH|done]. }
  rewrite Hrun. by destruct (run_tasks image true d' blobs ∅).
Qed.

(** X7: the diffusion changes the pixels of the blob only, and keeps the
    extent of the window: the pixels of the margin, and the valid pixels
    between those of the blob, leave it as the crop had them. *)
Theorem diffusion_touches_blob_only (view : ImageView P) (b : BlobCompressed) :
  blob_bounded b = true ->
  let W := window b true in
  let blob := map (fun p => vsub p (bmin W)) (decompress b) in
  exists mask patched,
    make_mask (width W) (height W) blob = Some mask /\
    diffusion (crop view W) mask (width W) (height W) = Some patched /\
    cols patched = width W /\ rows patched = height W /\
    forall i j, ~ In (i, j) blob -> pix patched i j = pix (crop view W) i j.
Proof.
  intros Hb W blob.
  destruct (make_mask_blob b 10 ltac:(lia) Hb) as [mask (Hm & Hmc & Hmr & Hmask)].
  destruct (diffusion_blob
              (fun img => forall i j, ~ In (i, j) blob ->
                                      pix img i j = pix (crop view W) i j)
              view b mask Hb Hmc Hmr Hmask) as [patched (Hd & Hc & Hr & HJ)].
  - done.
  - intros img c p _ _ HJ Hp _ i j Hij. rewrite updated_other; [by apply HJ|].
    intros <-. by apply Hij.
  - by exists mask, patched.
Qed.

End OverlayOrder.

Section RasterizeProperties.
Context {P : Type}.

Variable child_prerasterize : ImageView P -> BBox2i -> ImageView P.
Hypothesis child_prerasterize_agrees :
  forall child R x y,
    bbox_contains R x y -> pix (child_prerasterize child R) x y = pix child x y.

(** X8: rasterizing the overlay over a region gives an image of the size
    of the region whose pixels are the reads of the overlay, patches
    included: the stored value where the store has the coordinate, the
    source elsewhere. *)
Theorem rasterize_reads_overlay (v : @InpaintView P) (bbox : BBox2i) :
  cols (rasterize child_prerasterize v bbox) = width bbox /\
  rows (rasterize child_prerasterize v bbox) = height bbox /\
  forall i j, 0 <= i < width bbox -> 0 <= j < height bbox ->
    pix (rasterize child_prerasterize v bbox) i j =
    match m_patches v !! (vx (bmin bbox) + i, vy (bmin bbox) + j) with
    | Some patch => patch
    | None => pix (m_child v) (vx (bmin bbox) + i) (vy (bmin bbox) + j)
    end.
Proof.
  split; [reflexivity|]. split; [reflexivity|]. intros i j Hi Hj.
  unfold rasterize, vw_rasterize, as_image, pixel_at, prerasterize, copy_InpaintView.
  cbn [pix m_patches m_child contains]. unfold contains.
  destruct (m_patches v !! _); [done|].
  apply child_prerasterize_agrees. unfold bbox_contains, width, height in *. lia.
Qed.

End RasterizeProperties.

(** ** The extras on the sample images *)

Lemma flat_overlay_any_order_witness :
  exists v,
    new_InpaintView (PT := FloatPixel) sample_image [sample_blob; wide_blob] false black
      = Some v /\
    new_InpaintView (PT := FloatPixel) sample_image [wide_blob; sample_blob] false black
      = Some v.
Proof.
  apply (flat_overlay_any_order (PT := FloatPixel)).
  - apply perm_swap.
  - repeat constructor.
Defined.

Lemma last_insert_wins_witness :
  In (15, 16) (decompress pair_blob) /\ In (15, 16) (decompress cross_blob) /\
  exists v s_b,
    new_InpaintView (PT := FloatPixel) spoiled_image
      [pair_blob; cross_blob; lone_blob] true black = Some v /\
    InpaintTask (PT := FloatPixel) spoiled_image cross_blob true black ∅
      = Some (Finished, s_b) /\
    m_patches v !! (15, 16) = s_b !! (15, 16) /\ is_Some (s_b !! (15, 16)).
Proof.
  split; [right; by left|]. split; [by left|].
  apply (last_insert_wins (PT := FloatPixel) spoiled_image true black
           [pair_blob] [lone_blob] cross_blob (15, 16)).
  - repeat constructor.
  - unfold passes_edge_test, on_image. simpl. lia.
  - by left.
  - intros b' [<-|[]] _ [Hk|[]]. discriminate Hk.
Defined.

Lemma disjoint_overlay_any_order_witness :
  exists v,
    new_InpaintView (PT := FloatPixel) spoiled_image [pair_blob; lone_blob] true black
      = Some v /\
    new_InpaintView (PT := FloatPixel) spoiled_image [lone_blob; pair_blob] true black
      = Some v.
Proof.
  apply (disjoint_overlay_any_order (PT := FloatPixel)).
  - apply perm_swap.
  - repeat constructor.
  - intros b1 b2 k [<-|[<-|[]]] [<-|[<-|[]]] _ _ H1 H2; try reflexivity;
      simpl in H1, H2; destruct H1 as [<-|[<-|[]]] || destruct H1 as [<-|[]];
      repeat (destruct H2 as [H2|H2]; try discriminate H2); destruct H2.
Defined.

Lemma store_holds_processed_pixels_witness :
  window_fits sample_image (window far_edge_blob false) /\
  exists v,
    new_InpaintView (PT := FloatPixel) sample_image
      [edge_blob; sample_blob; far_edge_blob] false black = Some v /\
    is_Some (m_patches v !! (5, 5)) /\
    m_patches v !! (0, 5) = None /\ m_patches v !! (8, 5) = None.
Proof.
  split.
  { apply window_fits_bounds; unfold window, width, height; simpl; lia. }
  destruct (store_holds_processed_pixels (PT := FloatPixel) sample_image false black
              [edge_blob; sample_blob; far_edge_blob]) as [v (Hv & Hs)].
  - repeat constructor.
  - exists v. split; [exact Hv|]. split; [|split].
    + apply Hs. exists sample_blob. split; [right; by left|]. split; [|by left].
      split; [|unfold short_of_far_edge; simpl; lia].
      apply window_fits_bounds; unfold window, width, height; simpl; lia.
    + apply eq_None_not_Some. intros H0. apply Hs in H0 as [b (Hb & [Hfit Hsh] & Hk)].
      destruct Hb as [<-|[<-|[<-|[]]]].
      * apply window_fits_bounds in Hfit; unfold window, width, height in *;
          simpl in *; lia.
      * destruct Hk as [Hk|[]]. discriminate Hk.
      * destruct Hk as [Hk|[]]. discriminate Hk.
    + apply eq_None_not_Some. intros H0. apply Hs in H0 as [b (Hb & [Hfit Hsh] & Hk)].
      destruct Hb as [<-|[<-|[<-|[]]]].
      * destruct Hk as [Hk|[]]. discriminate Hk.
      * destruct Hk as [Hk|[]]. discriminate Hk.
      * unfold short_of_far_edge in Hsh. simpl in Hsh. lia.
Defined.

Lemma finished_task_reads_image_witness :
  on_image sample_image (4 + 2, 4 + 2).
Proof.
  destruct (InpaintTask (PT := FloatPixel) sample_image sample_blob false black ∅)
    as [[[|] s']|] eqn:E; try (vm_compute in E; discriminate E).
  apply (finished_task_reads_image (PT := FloatPixel) sample_image sample_blob
           false black ∅ s' E 2 2);
    unfold crop, window, width, height, margin, expand; simpl; lia.
Defined.

Lemma diffusion_touches_blob_only_witness :
  exists mask patched,
    make_mask 21 22 [(10, 10); (10, 11)] = Some mask /\
    diffusion (PT := FloatPixel) (crop spoiled_image pair_window) mask 21 22
      = Some patched /\
    cols patched = 21 /\ rows patched = 22 /\
    pix patched 9 10 = pix (crop spoiled_image pair_window) 9 10.
Proof.
  destruct (diffusion_touches_blob_only (PT := FloatPixel) spoiled_image pair_blob
              eq_refl) as [mask [patched (Hm & Hd & Hc & Hr & Hpix)]].
  exists mask, patched. split; [exact Hm|]. split; [exact Hd|].
  split; [exact Hc|]. split; [exact Hr|].
  apply Hpix. intros [H|[H|[]]]; discriminate H.
Defined.

Lemma rasterize_reads_overlay_witness :
  pix (rasterize clipped sample_overlay (mkBBox (4, 4) (7, 7))) 1 1 = black /\
  pix (rasterize clipped sample_overlay (mkBBox (4, 4) (7, 7))) 2 0
    = pix sample_image 6 4.
Proof.
  assert (Hclip : forall child R x y,
            bbox_contains R x y -> pix (clipped child R) x y = pix child x y).
  { intros child R x y [Hx Hy]. unfold clipped. cbn [pix].
    rewrite (proj2 (Z.leb_le _ _)), (proj2 (Z.ltb_lt _ _)),
            (proj2 (Z.leb_le _ _)), (proj2 (Z.ltb_lt _ _)) by lia.
    reflexivity. }
  destruct (rasterize_reads_overlay clipped Hclip sample_overlay (mkBBox (4, 4) (7, 7)))
    as (_ & _ & H).
  split.
  - rewrite (H 1 1) by (unfold width, height; simpl; lia). reflexivity.
  - rewrite (H 2 0) by (unfold width, height; simpl; lia). reflexivity.
Defined.

(** ** The diffusion of a blob of one pixel *)

Section SinglePixel.
Context {P : Type} `{PT : PixelType P}.

Lemma stencil_not_self (p : Vector2i) (wq : Q * Vector2i) :
  In wq (stencil p) -> snd wq <> p.
Proof.
  unfold stencil. destruct p as [x y]. cbn [vx vy fst snd].
  intros Hin H. repeat (destruct Hin as [<-|Hin]; [cbn [snd] in H; injection H; lia|]).
  destruct Hin.
Qed.

(** An update at [p] does not change the sum of the next update at [p]. *)
Lemma conv_sum_updated (img : ImageView P) (c c' : nat) (p : Vector2i) :
  conv_sum (updated img c' p) c p = conv_sum img c p.
Proof.
  apply conv_sum_neighbours. intros wq Hin.
  rewrite updated_other; [done|]. rewrite vector_eta. by apply stencil_not_self.
Qed.

(** [n] sweeps over the order of the single pixel [p]: [n] times the same
    value is stored in channel [c] of [p]. *)
Lemma sweeps_single (c : nat) (p : Vector2i) (n : nat) (img : ImageView P) :
  inner_pixel img p ->
  exists img',
    iterM n (sweep [p] c) img = Some img' /\
    cols img' = cols img /\ rows img' = rows img /\
    (forall i j, (i, j) <> p -> pix img' i j = pix img i j) /\
    pix img' (vx p) (vy p) =
      Nat.iter n (fun px => set_channel px c (accum_store (conv_sum img c p)))
        (pix img (vx p) (vy p)).
Proof.
  revert img. induction n as [|n IH]; intros img Hin.
  - exists img. by repeat split.
  - cbn [iterM]. unfold sweep at 1. cbn [foldM]. rewrite (convolve_inner c img p Hin).
    destruct (IH (updated img c p) Hin) as [img' (Hi & Hc & Hr & Ho & Hp)].
    exists img'. split; [exact Hi|]. split; [exact Hc|]. split; [exact Hr|]. split.
    + intros i j Hij. rewrite Ho by done. by apply updated_other.
    + rewrite Hp, conv_sum_updated, updated_self. by rewrite Nat.iter_succ_r.
Qed.

(** The sweeps of all channels over the single pixel [p], from an image
    that has the neighbours of [img0]. *)
Lemma channels_single (p : Vector2i) (n : nat) (img0 : ImageView P)
    (cs : list nat) (img : ImageView P) :
  inner_pixel img p ->
  (forall i j, (i, j) <> p -> pix img i j = pix img0 i j) ->
  exists img',
    foldM (fun img c => iterM n (sweep [p] c) img) cs img = Some img' /\
    cols img' = cols img /\ rows img' = rows img /\
    pix img' (vx p) (vy p) =
      fold_left
        (fun px c =>
           Nat.iter n (fun px => set_channel px c (accum_store (conv_sum img0 c p))) px)
        cs (pix img (vx p) (vy p)).
Proof.
  revert img. induction cs as [|c cs IH]; intros img Hin Hsame.
  - by exists img.
  - cbn [foldM fold_left].
    destruct (sweeps_single c p n img Hin) as [img1 (Hi & Hc & Hr & Ho & Hp)].
    rewrite Hi.
    destruct (IH img1) as [img' (Hf & Hc' & Hr' & Hp')].
    + unfold inner_pixel in *. by rewrite Hc, Hr.
    + intros i j Hij. rewrite Ho by done. by apply Hsame.
    + exists img'. split; [exact Hf|].
      split; [by rewrite Hc', Hc|]. split; [by rewrite Hr', Hr|].
      assert (Hs : conv_sum img c p = conv_sum img0 c p).
      { apply conv_sum_neighbours. intros wq Hwq. rewrite Hsame; [done|].
        rewrite vector_eta. by apply stencil_not_self. }
      by rewrite Hp', Hp, Hs.
Qed.

End SinglePixel.

Lemma list_single {A} (l : list A) (a : A) :
  NoDup l -> (forall x, In x l <-> x = a) -> l = [a].
Proof.
  intros Hnd Hin. destruct l as [|x l].
  - exfalso. by apply (proj2 (Hin a) eq_refl).
  - assert (x = a) as -> by (apply Hin; by left).
    destruct l as [|y l]; [done|]. exfalso.
    assert (y = a) as -> by (apply Hin; right; by left).
    apply NoDup_cons in Hnd as [Hnd _]. apply Hnd. by left.
Qed.

(** The processing order of the mask of one pixel is that pixel. *)
Lemma order_single (mask : ImageView Z) (q : Vector2i) :
  In q (coords (cols mask) (rows mask)) ->
  (forall i j, pix mask i j = if memv (i, j) [q] then 255 else 0) ->
  processing_order (grassfire mask) (max_pixel_value (grassfire mask))
    (cols mask) (rows mask) = [q].
Proof.
  intros Hq Hmask. apply list_single; [apply processing_order_NoDup|].
  intros x. rewrite in_order_of_mask, Hmask, vector_eta. split.
  - intros [_ Hx]. destruct (memv x [q]) eqn:E; [|done].
    symmetry. by apply memv_single.
  - intros ->. split; [done|].
    assert (memv q [q] = true) as -> by by apply memv_single. done.
Qed.

Section KernelSum.
Context {P : Type} `{PT : PixelType P}.

(** Channel [c] of a pixel after [n] writes of [v] to channel [c']. *)
Lemma iter_set_channel (n c c' : nat) (v : channel) (px : P) :
  (forall px v, get_channel (set_channel px c v) c = v) ->
  (forall px c' v, c' <> c -> get_channel (set_channel px c' v) c = get_channel px c) ->
  get_channel (Nat.iter n (fun px => set_channel px c' v) px) c =
  if Nat.eqb c c' && (0 <? n)%nat then v else get_channel px c.
Proof.
  intros Hw Hk. induction n as [|n IH].
  - cbn [Nat.iter nat_rect]. by rewrite andb_false_r.
  - rewrite Nat.iter_succ, (proj2 (Nat.ltb_lt 0 (Datatypes.S n))) by lia.
    rewrite andb_true_r. destruct (Nat.eqb c c') eqn:E.
    + apply Nat.eqb_eq in E. subst c'. apply Hw.
    + apply Nat.eqb_neq in E. rewrite Hk by (intros ->; done).
      rewrite IH. reflexivity.
Qed.

Lemma fold_set_channel (n : nat) (V : nat -> channel) (cs : list nat) (px : P)
    (c : nat) :
  (forall px v, get_channel (set_channel px c v) c = v) ->
  (forall px c' v, c' <> c -> get_channel (set_channel px c' v) c = get_channel px c) ->
  (0 < n)%nat ->
  get_channel
    (fold_left (fun px c' => Nat.iter n (fun px => set_channel px c' (V c')) px) cs px)
    c =
  if existsb (Nat.eqb c) cs then V c else get_channel px c.
Proof.
  intros Hw Hk Hn. revert px. induction cs as [|c' cs IH]; intros px; [done|].
  cbn [fold_left existsb]. rewrite IH.
  rewrite (iter_set_channel n c c' (V c') px Hw Hk).
  rewrite (proj2 (Nat.ltb_lt 0 n) Hn), andb_true_r.
  destruct (Nat.eqb c c') eqn:E; [|done].
  apply Nat.eqb_eq in E. subst c'. by destruct (existsb _ cs).
Qed.

(** X9: in diffusion mode, whatever the arithmetic of the pixel type, a
    blob of one pixel that passes the test of the task is patched, on every
    channel, with the stored sum of the kernel over the eight neighbours the
    pixel has in the source: the value the pixel held in the source does
    not enter, and the 10 sweeps store the same sum. *)
Theorem single_pixel_takes_kernel_sum (view : ImageView P)
    (b : BlobCompressed) (d : P) (s : gmap Vector2i P)
    (p : Vector2i) (c : nat) :
  decompress b = [p] -> blob_bounded b = true ->
  passes_edge_test view (window b true) -> (c < num_channels)%nat ->
  (forall px v, get_channel (set_channel px c v) c = v) ->
  (forall px c' v, c' <> c -> get_channel (set_channel px c' v) c = get_channel px c) ->
  let x := vx p in
  let y := vy p in
  let ch i j := get_channel (pix view i j) c in
  exists s' v,
    InpaintTask view b true d s = Some (Finished, s') /\
    s' !! p = Some v /\
    get_channel v c =
    accum_store
      (kernel (ch (x - 1) (y - 1)) (ch (x - 1) (y + 1)) (ch (x + 1) (y - 1))
         (ch (x + 1) (y + 1)) (ch (x + 1) y) (ch (x - 1) y) (ch x (y + 1))
         (ch x (y - 1))).
Proof.
  intros Hdec Hb Hin Hc Hw Hk x y ch.
  assert (Hoff : off_image view (window b true) = false).
  { apply off_image_false_iff; [apply window_ordered..|]; done. }
  set (W := window b true) in *.
  set (q := vsub p (bmin W)).
  assert (Hp : In p (decompress b)) by (rewrite Hdec; by left).
  destruct (make_mask_blob b 10 ltac:(lia) Hb) as [mask (Hm & Hmc & Hmr & Hmask)].
  change (expand (bounding_box b) 10) with W in Hm, Hmc, Hmr, Hmask.
  rewrite Hdec in Hm, Hmask. cbn [map] in Hm, Hmask. fold q in Hm, Hmask.
  pose proof (local_range b 10 p Hb Hp) as [Hqx Hqy].
  change (expand (bounding_box b) 10) with W in Hqx, Hqy. cbv zeta in Hqx, Hqy.
  fold q in Hqx, Hqy.
  assert (Hqc : In q (coords (cols mask) (rows mask))).
  { apply in_coords. rewrite Hmc, Hmr. lia. }
  pose proof (order_single mask q Hqc Hmask) as Horder.
  assert (Hinner : inner_pixel (crop view W) q).
  { unfold inner_pixel. cbn [cols rows crop]. lia. }
  set (nsw := sweep_count (max_pixel_value (grassfire mask))).
  assert (Hnsw : (0 < nsw)%nat).
  { pose proof (grassfire_interior mask (vx q) (vy q)) as H1.
    pose proof (max_pixel_value_ge (grassfire mask) q Hqc) as H2.
    assert (Hm1 : 1 <= pix (grassfire mask) (vx q) (vy q)).
    { apply H1; [by apply in_image_coords|]. rewrite Hmask, vector_eta.
      assert (memv q [q] = true) as -> by by apply memv_single. done. }
    unfold nsw, sweep_count. nia. }
  destruct (channels_single q nsw (crop view W) (seq 0 num_channels)
              (crop view W) Hinner) as [patched (Hf & Hpc & Hpr & Hpq)].
  { done. }
  assert (Hd : diffusion (crop view W) mask (width W) (height W) = Some patched).
  { unfold diffusion. rewrite <- Hmc, <- Hmr, Horder. exact Hf. }
  eexists. exists (pix patched (vx q) (vy q)). split.
  - apply (task_finished view b true d s mask patched); [exact Hoff| |exact Hd].
    fold W. rewrite Hdec. exact Hm.
  - split.
    + fold W.
      assert (Hmask' : forall i j,
                pix mask i j =
                if memv (i, j) (map (fun p0 => vsub p0 (bmin W)) (decompress b))
                then 255 else 0).
      { intros i j. rewrite Hdec. apply Hmask. }
      pose proof (patch_lookup b 10 mask patched s p ltac:(lia) Hb
                    Hmask' Hpc Hpr) as Hl.
      cbv zeta in Hl. apply memv_true in Hp. rewrite Hp in Hl. exact Hl.
    + rewrite Hpq.
      rewrite (fold_set_channel nsw
                 (fun c0 => accum_store (conv_sum (crop view W) c0 q))
                 (seq 0 num_channels) (pix (crop view W) (vx q) (vy q)) c Hw Hk Hnsw).
      assert (existsb (Nat.eqb c) (seq 0 num_channels) = true) as ->.
      { apply existsb_exists. exists c. split; [apply in_seq; lia|apply Nat.eqb_refl]. }
      rewrite conv_sum_kernel. cbv zeta. unfold ch, crop. cbn [pix].
      assert (Hx : vx (bmin W) + vx q = x).
      { unfold q, vsub, x, vx, vy. simpl. lia. }
      assert (Hy : vy (bmin W) + vy q = y).
      { unfold q, vsub, y, vx, vy. simpl. lia. }
      replace (vx (bmin W) + (vx q - 1)) with (x - 1) by lia.
      replace (vx (bmin W) + (vx q + 1)) with (x + 1) by lia.
      replace (vy (bmin W) + (vy q - 1)) with (y - 1) by lia.
      replace (vy (bmin W) + (vy q + 1)) with (y + 1) by lia.
      rewrite Hx, Hy. reflexivity.
Qed.

End KernelSum.

Lemma single_pixel_takes_kernel_sum_witness :
  exists s' v,
    InpaintTask (PT := FloatPixel) ramp_image lone_blob true black ∅
      = Some (Finished, s') /\
    s' !! (12, 12) = Some v /\ v = S754_finite false 12189695 (-15).
Proof.
  destruct (single_pixel_takes_kernel_sum (PT := FloatPixel) ramp_image lone_blob
              black ∅ (12, 12) 0%nat)
    as [s' [v (Ht & Hs & Hv)]].
  - reflexivity.
  - reflexivity.
  - unfold passes_edge_test, on_image. simpl. lia.
  - simpl. lia.
  - intros px v. reflexivity.
  - intros px c' v Hc. destruct c' as [|c']; [done|reflexivity].
  - exists s', v. split; [exact Ht|]. split; [exact Hs|].
    change (get_channel (PixelType := FloatPixel) v 0%nat) with v in Hv.
    rewrite Hv. by vm_compute.
Defined.

(** * The camera model loader *)

(** ** Suffixes *)

Lemma starts_with_app (input test : cstring) :
  starts_with input test = true <-> exists rest, input = test ++ rest.
Proof.
  revert input. induction test as [|t test IH]; intros input; simpl.
  - split; [intros _; by exists input|done].
  - destruct input as [|c input].
    + split; [done|]. intros [rest Hr]. discriminate Hr.
    + rewrite andb_true_iff, IH. split.
      * intros [Hc [rest ->]]. apply Ascii.eqb_eq in Hc. subst. by exists rest.
      * intros [rest Hr]. injection Hr as -> ->. split; [apply Ascii.eqb_refl|by exists rest].
Qed.

(** [ends_with] holds of the strings that are the test after some
    prefix. *)
Lemma ends_with_app (input test : cstring) :
  ends_with input test = true <-> exists front, input = front ++ test.
Proof.
  unfold ends_with. rewrite starts_with_app. split.
  - intros [rest Hr]. exists (rev rest).
    rewrite <- (rev_involutive input), Hr, rev_app_distr, rev_involutive. done.
  - intros [front ->]. exists (rev front). apply rev_app_distr.
Qed.

Lemma ends_with_longer (front input test : cstring) :
  ends_with input test = true -> ends_with (front ++ input) test = true.
Proof.
  rewrite !ends_with_app. intros [f ->]. exists (front ++ f). by rewrite app_assoc.
Qed.

Lemma ends_with_short (input test : cstring) :
  (length input < length test)%nat -> ends_with input test = false.
Proof.
  intros Hl. apply not_true_is_false. intros H.
  apply ends_with_app in H as [front ->]. rewrite length_app in Hl. lia.
Qed.

Lemma starts_with_two (r a b : cstring) :
  starts_with r a = true -> starts_with r b = true ->
  starts_with a b || starts_with b a = true.
Proof.
  revert a b. induction r as [|c r IH]; intros a b Ha Hb.
  - destruct a; [|done]. by destruct b.
  - destruct a as [|x a]; [by destruct b|].
    destruct b as [|y b]; [done|]. simpl in *.
    apply andb_true_iff in Ha as [Hx Ha]. apply andb_true_iff in Hb as [Hy Hb].
    apply Ascii.eqb_eq in Hx, Hy. subst x y. rewrite Ascii.eqb_refl. simpl.
    by apply IH.
Qed.

(** Two suffixes of one string: one is a suffix of the other. *)
Lemma ends_with_two (s a b : cstring) :
  ends_with s a = true -> ends_with s b = true ->
  ends_with a b || ends_with b a = true.
Proof. unfold ends_with. apply starts_with_two. Qed.

(** ** Case *)

Lemma to_lower_upper (c : ascii) : to_lower_char (to_upper_char c) = to_lower_char c.
Proof. destruct c as [[] [] [] [] [] [] [] []]; reflexivity. Qed.

Lemma to_lower_copy_upper (s : cstring) :
  to_lower_copy (map to_upper_char s) = to_lower_copy s.
Proof.
  unfold to_lower_copy. rewrite map_map. apply map_ext. apply to_lower_upper.
Qed.

Lemma to_lower_copy_app (s t : cstring) :
  to_lower_copy (s ++ t) = to_lower_copy s ++ to_lower_copy t.
Proof. apply map_app. Qed.

(** ** The choice of the model *)

(** No string ends with two of the seven extensions. *)
Ltac two_extensions :=
  match goal with
  | H1 : ends_with ?s ?a = true, H2 : ends_with ?s ?b = true |- _ =>
      lazymatch a with
      | b => fail
      | _ => exfalso; pose proof (ends_with_two s a b H1 H2) as Hx;
             vm_compute in Hx; discriminate Hx
      end
  end.

Ltac by_extension lc :=
  destruct (ends_with lc ext_cahvore) eqn:E1;
  destruct (ends_with lc ext_cahvor) eqn:E2;
  destruct (ends_with lc ext_cmod) eqn:E3;
  destruct (ends_with lc ext_cahv) eqn:E4;
  destruct (ends_with lc ext_pin) eqn:E5;
  destruct (ends_with lc ext_pinhole) eqn:E6;
  destruct (ends_with lc ext_tsai) eqn:E7;
  try two_extensions.

(** X10: the model is chosen by the extension of the lower-cased path
    alone, and the order of the tests does not matter, no path ending with
    two of the seven extensions: .cahvore gives CAHVORE; .cahvor and .cmod
    give CAHVOR; .cahv and .pin give CAHV; .pinhole and .tsai give Pinhole;
    every other path gives the exception. *)
Theorem pinhole_model_by_extension (path : cstring) :
  let lc := to_lower_copy path in
  (load_pinhole_camera_model path = NewModel CAHVORE path <->
     ends_with lc ext_cahvore = true) /\
  (load_pinhole_camera_model path = NewModel CAHVOR path <->
     ends_with lc ext_cahvor = true \/ ends_with lc ext_cmod = true) /\
  (load_pinhole_camera_model path = NewModel CAHV path <->
     ends_with lc ext_cahv = true \/ ends_with lc ext_pin = true) /\
  (load_pinhole_camera_model path = NewModel Pinhole path <->
     ends_with lc ext_pinhole = true \/ ends_with lc ext_tsai = true) /\
  (load_pinhole_camera_model path = ArgumentErr <->
     ends_with lc ext_cahvore = false /\ ends_with lc ext_cahvor = false /\
     ends_with lc ext_cmod = false /\ ends_with lc ext_cahv = false /\
     ends_with lc ext_pin = false /\ ends_with lc ext_pinhole = false /\
     ends_with lc ext_tsai = false).
Proof.
  intros lc. unfold load_pinhole_camera_model. fold lc.
  by_extension lc; cbn [orb];
    repeat split; intros; try discriminate; try tauto; intuition discriminate.
Qed.

(** X11: the choice does not look at the case of the path: the path in
    upper case gets the model of the path as given, and so do two paths
    that are equal once lower-cased; the constructor is handed the path as
    it was given, case included. *)
Theorem pinhole_model_ignores_case (path : cstring) :
  model_type (load_pinhole_camera_model (map to_upper_char path)) =
    model_type (load_pinhole_camera_model path) /\
  (forall other, to_lower_copy other = to_lower_copy path ->
     model_type (load_pinhole_camera_model other) =
     model_type (load_pinhole_camera_model path)) /\
  (forall t file, load_pinhole_camera_model path = NewModel t file -> file = path).
Proof.
  assert (Hsame : forall other, to_lower_copy other = to_lower_copy path ->
            model_type (load_pinhole_camera_model other) =
            model_type (load_pinhole_camera_model path)).
  { intros other Hl. unfold load_pinhole_camera_model. rewrite Hl.
    by_extension (to_lower_copy path); reflexivity. }
  split; [apply Hsame, to_lower_copy_upper|]. split; [exact Hsame|].
  intros t file. unfold load_pinhole_camera_model.
  by_extension (to_lower_copy path); cbn [orb]; intros H;
    try discriminate H; by injection H.
Qed.

(** X12: the two loaders know the same files: when the image opens,
    [load_cahv_pinhole_camera_model] starts from the model that
    [load_pinhole_camera_model] constructs for the camera path, and throws
    [ArgumentErr] on the paths on which that one does. *)
Theorem cahv_loader_agrees_with_pinhole_loader
    (disk_image : cstring -> option Vector2i) (image_path camera_path : cstring)
    (image_size : Vector2i) :
  disk_image image_path = Some image_size ->
  cahv_source_type (load_cahv_pinhole_camera_model disk_image image_path camera_path)
    = model_type (load_pinhole_camera_model camera_path) /\
  (load_cahv_pinhole_camera_model disk_image image_path camera_path = CahvArgumentErr
   <-> load_pinhole_camera_model camera_path = ArgumentErr).
Proof.
  intros Hopen. unfold load_cahv_pinhole_camera_model, load_pinhole_camera_model.
  rewrite Hopen.
  by_extension (to_lower_copy camera_path); cbn [orb];
    (split; [reflexivity|split; intros H; (discriminate H || reflexivity)]).
Qed.

Ltac behind_prefix ld ln e :=
  let N := fresh "N" in
  destruct (ends_with ln e) eqn:N; [apply (ends_with_longer ld) in N|].

(** X13: the directory of a file does not matter: a file name whose
    model is known keeps it behind every prefix. *)
Theorem pinhole_model_ignores_directory (dir name : cstring) (t : ModelType) :
  model_type (load_pinhole_camera_model name) = Some t ->
  model_type (load_pinhole_camera_model (dir ++ name)) = Some t.
Proof.
  unfold load_pinhole_camera_model. rewrite to_lower_copy_app.
  set (ld := to_lower_copy dir). set (ln := to_lower_copy name).
  behind_prefix ld ln ext_cahvore; behind_prefix ld ln ext_cahvor;
  behind_prefix ld ln ext_cmod; behind_prefix ld ln ext_cahv;
  behind_prefix ld ln ext_pin; behind_prefix ld ln ext_pinhole;
  behind_prefix ld ln ext_tsai;
  try two_extensions; cbn [orb model_type]; intros Ht; try discriminate Ht;
    by_extension (ld ++ ln); cbn [orb model_type]; first [exact Ht|discriminate].
Qed.

(** X14: a path of fewer than four characters, the empty path among
    them, has no known extension: both loaders throw [ArgumentErr] on it
    (the second one once the image is open). *)
Theorem short_path_is_unsupported
    (disk_image : cstring -> option Vector2i) (image_path path : cstring)
    (image_size : Vector2i) :
  (length path < 4)%nat -> disk_image image_path = Some image_size ->
  load_pinhole_camera_model path = ArgumentErr /\
  load_cahv_pinhole_camera_model disk_image image_path path = CahvArgumentErr.
Proof.
  intros Hl Hopen.
  unfold load_cahv_pinhole_camera_model, load_pinhole_camera_model. rewrite Hopen.
  assert (Hlc : (length (to_lower_copy path) < 4)%nat).
  { unfold to_lower_copy. by rewrite length_map. }
  rewrite !ends_with_short by (simpl; lia). done.
Qed.

(** X15: the image is opened before the camera file is looked at: when it
    does not open, the load fails whatever the camera path, unsupported
    paths included; and for the CAHV and pinhole files, which need no image
    size, the outcome is the same for every image that opens. *)
Theorem cahv_loader_opens_image_first
    (disk_image disk_image' : cstring -> option Vector2i)
    (image_path image_path' camera_path : cstring) :
  (disk_image image_path = None ->
   load_cahv_pinhole_camera_model disk_image image_path camera_path = ImageErr) /\
  (forall size size',
     disk_image image_path = Some size -> disk_image' image_path' = Some size' ->
     (model_type (load_pinhole_camera_model camera_path) = Some CAHV \/
      model_type (load_pinhole_camera_model camera_path) = Some Pinhole) ->
     load_cahv_pinhole_camera_model disk_image image_path camera_path =
     load_cahv_pinhole_camera_model disk_image' image_path' camera_path).
Proof.
  split.
  - intros Hno. unfold load_cahv_pinhole_camera_model. by rewrite Hno.
  - intros size size' Ho Ho'.
    unfold load_cahv_pinhole_camera_model, load_pinhole_camera_model.
    rewrite Ho, Ho'.
    by_extension (to_lower_copy camera_path); cbn [orb model_type];
      intros [H|H]; (discriminate H || reflexivity).
Qed.

(** ** The loader on sample names *)

Lemma cahv_loader_agrees_with_pinhole_loader_witness :
  cahv_source_type
    (load_cahv_pinhole_camera_model (fun _ => Some (640, 480)) name_image name_cahvor)
  = Some CAHVOR /\
  load_cahv_pinhole_camera_model (fun _ => Some (640, 480)) name_image name_cahvor
  = LinearizeSized CAHVOR name_cahvor (640, 480) (640, 480).
Proof.
  destruct (cahv_loader_agrees_with_pinhole_loader (fun _ => Some (640, 480))
              name_image name_cahvor (640, 480) eq_refl) as [H _].
  split; [rewrite H|]; reflexivity.
Defined.

Lemma pinhole_model_ignores_directory_witness :
  model_type (load_pinhole_camera_model (name_dir ++ name_cahvor)) = Some CAHVOR.
Proof. apply (pinhole_model_ignores_directory name_dir name_cahvor CAHVOR). reflexivity. Defined.

Lemma short_path_is_unsupported_witness :
  load_pinhole_camera_model [] = ArgumentErr /\
  load_cahv_pinhole_camera_model (fun _ => Some (640, 480)) name_image []
  = CahvArgumentErr.
Proof.
  apply (short_path_is_unsupported (fun _ => Some (640, 480)) name_image [] (640, 480)).
  - simpl. lia.
  - reflexivity.
Defined.

(** * Defects near the border, and the two modes *)

Section Border.
Context {P : Type} `{PT : PixelType P}.

(** A blob with a pixel closer to the border of the image than the margin
    of the mode has its window off the image. *)
Lemma near_border_off_image (image : ImageView P) (b : BlobCompressed) (g : bool)
    (p : Vector2i) :
  blob_bounded b = true -> In p (decompress b) ->
  vx p < margin g \/ vy p < margin g \/
  cols image - margin g <= vx p \/ rows image - margin g <= vy p ->
  off_image image (window b g) = true.
Proof.
  intros Hb Hp Hnear. unfold blob_bounded in Hb.
  apply andb_true_iff in Hb as [_ Hb]. rewrite forallb_forall in Hb.
  specialize (Hb p Hp). unfold in_bbox in Hb. rewrite !andb_true_iff in Hb.
  destruct Hb as [[[H1 H2] H3] H4].
  unfold off_image. rewrite !orb_true_iff.
  unfold window, expand, vx, vy in *. simpl. lia.
Qed.

(** X16: a pixel closer to the border of the image than the margin of
    the mode (10 pixels in diffusion mode, 1 in flat mode) is never
    patched: whatever the blobs, the overlay returns its source value. *)
Theorem border_pixels_stay_unpatched (image : ImageView P) (g : bool) (d : P)
    (blobs : list BlobCompressed) (p : Vector2i) :
  Forall (fun b => blob_bounded b = true) blobs ->
  vx p < margin g \/ vy p < margin g \/
  cols image - margin g <= vx p \/ rows image - margin g <= vy p ->
  exists v,
    new_InpaintView image blobs g d = Some v /\
    m_patches v !! p = None /\
    pixel_at v (vx p) (vy p) = pix image (vx p) (vy p).
Proof.
  intros Hbs Hnear.
  destruct (run_tasks_frame image g d blobs ∅ Hbs) as [s (Hr & Hf & _)].
  exists (mkInpaintView image s g d). unfold new_InpaintView. rewrite Hr.
  split; [done|].
  assert (Hs : s !! p = None).
  { rewrite Hf; [apply lookup_empty|]. apply patched_by_false.
    intros b Hb Hoff Hp. rewrite Forall_forall in Hbs.
    rewrite (near_border_off_image image b g p) in Hoff; [done| |done..].
    apply Hbs. by apply list_elem_of_In. }
  split; [exact Hs|]. unfold pixel_at, contains. cbn [m_patches m_child].
  destruct p as [x y]. cbn [vx vy fst snd].
  change (s !! (x, y) = None) in Hs. unfold Vector2i in *. by rewrite Hs.
Qed.

(** X17: the flat mode patches every pixel the diffusion mode patches:
    a blob whose window of margin 10 lies on the image has its window of
    margin 1 on it, so the store of the diffusion overlay is within the
    store of the flat overlay of the same blobs. *)
Theorem flat_patches_where_diffusion_does (image : ImageView P) (d : P)
    (blobs : list BlobCompressed) :
  Forall (fun b => blob_bounded b = true) blobs ->
  exists v_flat v_diff,
    new_InpaintView image blobs false d = Some v_flat /\
    new_InpaintView image blobs true d = Some v_diff /\
    forall k, is_Some (m_patches v_diff !! k) -> m_patches v_flat !! k = Some d.
Proof.
  intros Hbs.
  destruct (run_tasks_flat image d blobs ∅ Hbs) as [sf (Hrf & Hlf)].
  destruct (run_tasks_frame image true d blobs ∅ Hbs) as [sd (Hrd & Hfd & _)].
  exists (mkInpaintView image sf false d), (mkInpaintView image sd true d).
  unfold new_InpaintView. rewrite Hrf, Hrd. split; [done|]. split; [done|].
  intros k Hk. cbn [m_patches] in *. rewrite Hlf.
  destruct (patched_by image true blobs k) eqn:E.
  - assert (patched_by image false blobs k = true) as ->; [|done].
    apply existsb_exists in E as [b [Hb Hfb]]. apply existsb_exists. exists b.
    split; [done|]. apply andb_true_iff in Hfb as [Hoff Hm].
    apply andb_true_iff. split; [|done]. apply negb_true_iff in Hoff.
    apply negb_true_iff. unfold off_image in *. rewrite !orb_false_iff in *.
    unfold window, expand, margin, vx, vy in *. simpl in *. lia.
  - rewrite (Hfd k E), lookup_empty in Hk. by destruct Hk.
Qed.

End Border.

Lemma border_pixels_stay_unpatched_witness :
  exists v,
    new_InpaintView (PT := FloatPixel) spoiled_image
      [mkBlob (mkBBox (3, 12) (4, 13)) [(3, 12)]; pair_blob] true black = Some v /\
    m_patches v !! (3, 12) = None /\
    pixel_at v 3 12 = pix spoiled_image 3 12.
Proof.
  apply (border_pixels_stay_unpatched (PT := FloatPixel) spoiled_image true black
           [mkBlob (mkBBox (3, 12) (4, 13)) [(3, 12)]; pair_blob] (3, 12)).
  - repeat constructor.
  - left. simpl. lia.
Defined.

Lemma flat_patches_where_diffusion_does_witness :
  exists v_flat v_diff,
    new_InpaintView (PT := FloatPixel) spoiled_image [pair_blob; lone_blob] false black
      = Some v_flat /\
    new_InpaintView (PT := FloatPixel) spoiled_image [pair_blob; lone_blob] true black
      = Some v_diff /\
    forall k, is_Some (m_patches v_diff !! k) -> m_patches v_flat !! k = Some black.
Proof.
  apply (flat_patches_where_diffusion_does (PT := FloatPixel)). repeat constructor.
Defined.
